(** * Codec registry and protocol handlers of the Cassandra driver

    A shallow embedding of [cassandra/registry.py], [cassandra/context.py]
    and of the custom protocol handlers of
    [tests/integration/standard/test_custom_protocol_handler.py].

    Python dictionaries are mutable, shared objects.  The registry hands the
    very dictionaries it owns to the protocol handler, and the custom
    handlers deep-copy them before patching, so dictionaries live in an
    explicit object store and are passed around by reference.  A callable
    stored in a map is a bound method: it is modelled by the value that
    Python's [==] compares, which is the function together with the class
    or the object it is bound to.  The error codec is an object, created
    anew by every call of its constructor and by every deep copy, and never
    mutated: a method bound to it carries the identity of the object and the
    table the object holds. *)

From Stdlib Require Import Ascii String DecimalString DecimalPos DecimalZ
  HexadecimalPos.
From stdpp Require Import base option list gmap strings.

Set Default Proof Using "Type".
Open Scope Z_scope.


(** ** Python dictionaries with integer keys

    Insertion ordered, as in Python: [d[k] = v] replaces the value in place
    when [k] is present and appends a new item otherwise. *)

Abbreviation dict V := (list (Z * V)) (only parsing).

Fixpoint dict_get {V} (d : dict V) (k : Z) : option V :=
  match d with
  | [] => None
  | (k', v) :: d' => if Z.eqb k' k then Some v else dict_get d' k
  end.

Fixpoint dict_set {V} (d : dict V) (k : Z) (v : V) : dict V :=
  match d with
  | [] => [(k, v)]
  | (k', v') :: d' =>
      if Z.eqb k' k then (k', v) :: d' else (k', v') :: dict_set d' k v
  end.

Definition dict_contains {V} (d : dict V) (k : Z) : bool :=
  match dict_get d k with Some _ => true | None => false end.

Definition dict_keys {V} (d : dict V) : list Z := d.*1.

(** [dict(items)]: the items are inserted from left to right. *)
Definition dict_of_items {V} (items : list (Z * V)) : dict V :=
  fold_left (fun d kv => dict_set d kv.1 kv.2) items [].

(** ** Codec callables *)

(** The outbound message classes whose [encode] is registered. *)
Inductive RequestClass :=
| StartupMessage | RegisterMessage | BatchMessage | QueryMessage
| ExecuteMessage | PrepareMessage | OptionsMessage | AuthResponseMessage.

(** The inbound message classes (or their [Codec] class) whose [decode] is
    registered directly. *)
Inductive ResponseClass :=
| ReadyMessage | EventMessage_Codec | ResultMessage_Codec
| AuthenticateMessage | AuthSuccessMessage | AuthChallengeMessage
| SupportedMessage.

(** The error classes handed to [ErrorMessage.Codec]. *)
Inductive ErrorClass :=
| UnavailableErrorMessage | ReadTimeoutErrorMessage | WriteTimeoutErrorMessage
| IsBootstrappingErrorMessage | OverloadedErrorMessage
| UnauthorizedErrorMessage | ServerError | ProtocolException | BadCredentials
| TruncateError | ReadFailureMessage | FunctionFailureMessage
| WriteFailureMessage | CDCWriteException | SyntaxException
| InvalidRequestException | ConfigurationException | PreparedQueryNotFound
| AlreadyExistsException.

(** The result codecs defined by the custom protocol handler tests. *)
Inductive CustomCodec :=
| CustomResultMessageRaw_Codec | CustomResultMessageTracked_Codec.

(** [e.decode] for an error class [e]: the second component of an item of
    [error_decoders]. *)
Inductive variant_decoder := error_decode (e : ErrorClass).

(** Object identities. *)
Abbreviation loc := nat (only parsing).

(** The callables stored in the maps.  [codec_decode self tbl] is the
    [decode] bound to the [ErrorMessage.Codec] object [self], whose dispatch
    table is [tbl]; [callable n] stands for any other function object. *)
Inductive func :=
| encode (m : RequestClass)
| decode (c : ResponseClass)
| codec_decode (self : loc) (error_decoders : dict variant_decoder)
| custom_decode (c : CustomCodec)
| callable (n : nat).

(** ** Object store *)


(** [outers] holds the dictionaries keyed by protocol version, whose values
    are references to the dictionaries of [inners], keyed by opcode;
    [codecs] holds the identities of the error codec objects created so
    far. *)
Record heap := Heap {
  outers : gmap loc (dict loc);
  inners : gmap loc (dict func);
  codecs : gset loc
}.

Definition empty_heap : heap := Heap ∅ ∅ ∅.

Inductive exn :=
| KeyError (key : Z)
| ValueError (msg : string).

(** Result of running a piece of code: a value, a raised exception, or
    [Fault] when a reference designates no object, which no Python program
    can observe. *)
Inductive outcome (A : Type) :=
| Ret (a : A) (σ : heap)
| Raise (e : exn) (σ : heap)
| Fault.
Arguments Ret {A} a σ.
Arguments Raise {A} e σ.
Arguments Fault {A}.

Definition M (A : Type) : Type := heap -> outcome A.

Definition ret {A} (a : A) : M A := fun σ => Ret a σ.

Definition bind {A B} (m : M A) (k : A -> M B) : M B :=
  fun σ =>
    match m σ with
    | Ret a σ' => k a σ'
    | Raise e σ' => Raise e σ'
    | Fault => Fault
    end.

Definition raise {A} (e : exn) : M A := fun σ => Raise e σ.

Notation "'let*' x ':=' m 'in' k" := (bind m (fun x => k))
  (at level 10, x pattern, m at level 100, k at level 200).
Notation "m '>>' k" := (bind m (fun _ => k))
  (at level 100, k at level 200, right associativity).

(** [try: body except KeyError: handler] *)
Definition try_except_KeyError {A} (body handler : M A) : M A :=
  fun σ =>
    match body σ with
    | Raise (KeyError _) σ' => handler σ'
    | r => r
    end.

(** [for x in xs: body x] *)
Fixpoint for_each {A} (xs : list A) (body : A -> M unit) : M unit :=
  match xs with
  | [] => ret tt
  | x :: xs' => body x >> for_each xs' body
  end.

(** *** Primitive operations on dictionaries of the store *)

(** [{}] at the outer level. *)
Definition new_outer : M loc := fun σ =>
  let l := fresh (dom (outers σ)) in
  Ret l (Heap (<[l := []]> (outers σ)) (inners σ) (codecs σ)).

(** [{}] at the inner level. *)
Definition new_inner : M loc := fun σ =>
  let l := fresh (dom (inners σ)) in
  Ret l (Heap (outers σ) (<[l := []]> (inners σ)) (codecs σ)).

(** A new error codec object. *)
Definition new_codec : M loc := fun σ =>
  let l := fresh (codecs σ) in
  Ret l (Heap (outers σ) (inners σ) ({[ l ]} ∪ codecs σ)).

Definition read_outer (d : loc) : M (dict loc) := fun σ =>
  match outers σ !! d with Some m => Ret m σ | None => Fault end.

Definition read_inner (i : loc) : M (dict func) := fun σ =>
  match inners σ !! i with Some c => Ret c σ | None => Fault end.

Definition write_outer (d : loc) (m : dict loc) : M unit := fun σ =>
  Ret tt (Heap (<[d := m]> (outers σ)) (inners σ) (codecs σ)).

Definition write_inner (i : loc) (c : dict func) : M unit := fun σ =>
  Ret tt (Heap (outers σ) (<[i := c]> (inners σ)) (codecs σ)).

(** [k in d] *)
Definition outer_contains (d : loc) (k : Z) : M bool :=
  let* m := read_outer d in ret (dict_contains m k).

(** [d[k]] *)
Definition outer_getitem (d : loc) (k : Z) : M loc :=
  let* m := read_outer d in
  match dict_get m k with
  | Some i => ret i
  | None => raise (KeyError k)
  end.

Definition inner_getitem (i : loc) (k : Z) : M func :=
  let* c := read_inner i in
  match dict_get c k with
  | Some f => ret f
  | None => raise (KeyError k)
  end.

(** [d[k] = v] *)
Definition outer_setitem (d : loc) (k : Z) (i : loc) : M unit :=
  let* m := read_outer d in write_outer d (dict_set m k i).

Definition inner_setitem (i : loc) (k : Z) (f : func) : M unit :=
  let* c := read_inner i in write_inner i (dict_set c k f).

(** ** [cassandra/registry.py] *)

Abbreviation ProtocolVersion := Z (only parsing).
Abbreviation Opcode := Z (only parsing).
Abbreviation ErrorCode := Z (only parsing).

(** Python's [format(n, "02X")] on an integer: upper-case hexadecimal,
    padded with zeros to two characters, the sign counting as one. *)
Fixpoint upper_hex (u : Hexadecimal.uint) : string :=
  match u with
  | Hexadecimal.Nil => ""
  | Hexadecimal.D0 u => String "0"%char (upper_hex u)
  | Hexadecimal.D1 u => String "1"%char (upper_hex u)
  | Hexadecimal.D2 u => String "2"%char (upper_hex u)
  | Hexadecimal.D3 u => String "3"%char (upper_hex u)
  | Hexadecimal.D4 u => String "4"%char (upper_hex u)
  | Hexadecimal.D5 u => String "5"%char (upper_hex u)
  | Hexadecimal.D6 u => String "6"%char (upper_hex u)
  | Hexadecimal.D7 u => String "7"%char (upper_hex u)
  | Hexadecimal.D8 u => String "8"%char (upper_hex u)
  | Hexadecimal.D9 u => String "9"%char (upper_hex u)
  | Hexadecimal.Da u => String "A"%char (upper_hex u)
  | Hexadecimal.Db u => String "B"%char (upper_hex u)
  | Hexadecimal.Dc u => String "C"%char (upper_hex u)
  | Hexadecimal.Dd u => String "D"%char (upper_hex u)
  | Hexadecimal.De u => String "E"%char (upper_hex u)
  | Hexadecimal.Df u => String "F"%char (upper_hex u)
  end.

Definition format_02X (n : Z) : string :=
  match n with
  | Z0 => "00"
  | Zpos p =>
      let s := upper_hex (Pos.to_hex_uint p) in
      if Nat.ltb (String.length s) 2 then String "0"%char s else s
  | Zneg p => String "-"%char (upper_hex (Pos.to_hex_uint p))
  end.

(** Python's [str(n)] on an integer, which is what the replacement field
    [{1}] of a format string produces. *)
Definition str (n : Z) : string := NilZero.string_of_int (Z.to_int n).

(** ["No codec registered for message '{0:02X}' and protocol version
    '{1}'".format(opcode, protocol_version)] *)
Definition codec_error_message (opcode : Opcode) (protocol_version : ProtocolVersion)
  : string :=
  "No codec registered for message '" +:+ format_02X opcode +:+
  "' and protocol version '" +:+ str protocol_version +:+ "'".

(** Reading the opcode and the protocol version back from the message. *)
Fixpoint read_upper_hex (s : string) : option Hexadecimal.uint :=
  match s with
  | EmptyString => Some Hexadecimal.Nil
  | String a s' =>
      match read_upper_hex s' with
      | None => None
      | Some u =>
          if Ascii.eqb a "0"%char then Some (Hexadecimal.D0 u)
          else if Ascii.eqb a "1"%char then Some (Hexadecimal.D1 u)
          else if Ascii.eqb a "2"%char then Some (Hexadecimal.D2 u)
          else if Ascii.eqb a "3"%char then Some (Hexadecimal.D3 u)
          else if Ascii.eqb a "4"%char then Some (Hexadecimal.D4 u)
          else if Ascii.eqb a "5"%char then Some (Hexadecimal.D5 u)
          else if Ascii.eqb a "6"%char then Some (Hexadecimal.D6 u)
          else if Ascii.eqb a "7"%char then Some (Hexadecimal.D7 u)
          else if Ascii.eqb a "8"%char then Some (Hexadecimal.D8 u)
          else if Ascii.eqb a "9"%char then Some (Hexadecimal.D9 u)
          else if Ascii.eqb a "A"%char then Some (Hexadecimal.Da u)
          else if Ascii.eqb a "B"%char then Some (Hexadecimal.Db u)
          else if Ascii.eqb a "C"%char then Some (Hexadecimal.Dc u)
          else if Ascii.eqb a "D"%char then Some (Hexadecimal.Dd u)
          else if Ascii.eqb a "E"%char then Some (Hexadecimal.De u)
          else if Ascii.eqb a "F"%char then Some (Hexadecimal.Df u)
          else None
      end
  end.

Definition read_02X (s : string) : option Z :=
  match s with
  | EmptyString => None
  | String a s' =>
      if Ascii.eqb a "-"%char
      then option_map (fun u => Z.opp (Z.of_N (Pos.of_hex_uint u)))
             (read_upper_hex s')
      else option_map (fun u => Z.of_N (Pos.of_hex_uint u)) (read_upper_hex s)
  end.

Definition read_str (s : string) : option Z :=
  option_map Z.of_int (NilZero.int_of_string s).

Fixpoint strip_prefix (p s : string) : option string :=
  match p, s with
  | EmptyString, _ => Some s
  | String a p', String b s' =>
      if Ascii.eqb a b then strip_prefix p' s' else None
  | String _ _, EmptyString => None
  end.

(** Splits at the first single quote. *)
Fixpoint split_quote (s : string) : option (string * string) :=
  match s with
  | EmptyString => None
  | String a s' =>
      if Ascii.eqb a "'"%char then Some (EmptyString, s')
      else match split_quote s' with
           | Some (x, y) => Some (String a x, y)
           | None => None
           end
  end.

Fixpoint quote_free (s : string) : bool :=
  match s with
  | EmptyString => true
  | String a s' => negb (Ascii.eqb a "'") && quote_free s'
  end.

Definition read_codec_error (msg : string) : option (Z * Z) :=
  match strip_prefix "No codec registered for message '" msg with
  | None => None
  | Some s1 =>
      match split_quote s1 with
      | None => None
      | Some (h, s2) =>
          match strip_prefix " and protocol version '" s2 with
          | None => None
          | Some s3 =>
              match split_quote s3 with
              | Some (d, EmptyString) =>
                  match read_02X h, read_str d with
                  | Some o, Some v => Some (o, v)
                  | _, _ => None
                  end
              | _ => None
              end
          end
      end
  end.

Record MessageCodecRegistry := Registry {
  encoders : loc;
  decoders : loc
}.

(** [MessageCodecRegistry.__init__] *)
Definition MessageCodecRegistry_init : M MessageCodecRegistry :=
  let* e := new_outer in
  let* d := new_outer in
  ret (Registry e d).

(** [MessageCodecRegistry._add] *)
Definition _add (registry : loc) (protocol_version : ProtocolVersion)
    (opcode : Opcode) (f : func) : M unit :=
  let* present := outer_contains registry protocol_version in
  (if present then ret tt
   else let* i := new_inner in outer_setitem registry protocol_version i) >>
  let* i := outer_getitem registry protocol_version in
  inner_setitem i opcode f.

(** [MessageCodecRegistry._get] *)
Definition _get (registry : loc) (protocol_version : ProtocolVersion)
    (opcode : Opcode) : M func :=
  try_except_KeyError
    (let* i := outer_getitem registry protocol_version in
     inner_getitem i opcode)
    (raise (ValueError (codec_error_message opcode protocol_version))).

Definition add_encoder (self : MessageCodecRegistry) v o f : M unit :=
  _add (encoders self) v o f.

Definition add_decoder (self : MessageCodecRegistry) v o f : M unit :=
  _add (decoders self) v o f.

Definition get_encoder (self : MessageCodecRegistry) v o : M func :=
  _get (encoders self) v o.

Definition get_decoder (self : MessageCodecRegistry) v o : M func :=
  _get (decoders self) v o.

(** ** The constants of [cassandra.protocol]

    The message classes are not among the sources at hand: the [opcode] and
    [error_code] class attributes that the code reads are parameters of the
    development.  [result_message_opcode] is [ResultMessage.opcode], which
    the custom result messages of the tests inherit. *)
Record Protocol := {
  request_opcode : RequestClass -> Opcode;
  codec_opcode : ResponseClass -> Opcode;
  error_codec_opcode : Opcode;
  error_code : ErrorClass -> ErrorCode;
  result_message_opcode : Opcode
}.

(** The numbers of the CQL native protocol, as one instance. *)
Definition native_protocol : Protocol := {|
  request_opcode m :=
    match m with
    | StartupMessage => 1 | OptionsMessage => 5 | QueryMessage => 7
    | PrepareMessage => 9 | ExecuteMessage => 10 | RegisterMessage => 11
    | BatchMessage => 13 | AuthResponseMessage => 15
    end;
  codec_opcode c :=
    match c with
    | ReadyMessage => 2 | AuthenticateMessage => 3 | SupportedMessage => 6
    | ResultMessage_Codec => 8 | EventMessage_Codec => 12
    | AuthChallengeMessage => 14 | AuthSuccessMessage => 16
    end;
  error_codec_opcode := 0;
  error_code e :=
    match e with
    | ServerError => 0 | ProtocolException => 10 | BadCredentials => 256
    | UnavailableErrorMessage => 4096 | OverloadedErrorMessage => 4097
    | IsBootstrappingErrorMessage => 4098 | TruncateError => 4099
    | WriteTimeoutErrorMessage => 4352 | ReadTimeoutErrorMessage => 4608
    | ReadFailureMessage => 4864 | FunctionFailureMessage => 5120
    | WriteFailureMessage => 5376 | CDCWriteException => 5632
    | SyntaxException => 8192 | UnauthorizedErrorMessage => 8448
    | InvalidRequestException => 8704 | ConfigurationException => 8960
    | AlreadyExistsException => 9216 | PreparedQueryNotFound => 9472
    end;
  result_message_opcode := 8
|}.

(** Modelled from the spec: the values of [ProtocolVersion], defined in
    [cassandra/__init__.py], which is missing; a protocol version is a small
    ordered integer identifying the protocol revision (3, 4, 5). *)
Definition V3 : ProtocolVersion := 3.
Definition V4 : ProtocolVersion := 4.
Definition V5 : ProtocolVersion := 5.

(** An object with an [opcode] and a [decode] attribute. *)
Record codec := Codec {
  codec_opcode_of : Opcode;
  codec_decode_of : func
}.

(** Modelled from the spec: the constructor of [ErrorMessage.Codec], defined
    in [cassandra/protocol.py], which is missing.  The generic error decoder
    keeps a private lookup keyed by ErrorCode only, built from the
    [(error_code, decode)] pairs it is given, and forwards to the variant
    decoder found under the ErrorCode read from the payload. *)
Definition ErrorMessage_Codec (P : Protocol) (self : loc)
    (error_decoders : list (ErrorCode * variant_decoder)) : codec :=
  Codec (error_codec_opcode P)
    (codec_decode self (dict_of_items error_decoders)).

(** [ErrorMessage.Codec(error_decoders)]: every call creates an object. *)
Definition ErrorMessage_Codec_new (P : Protocol)
    (error_decoders : list (ErrorCode * variant_decoder)) : M codec :=
  let* self := new_codec in
  ret (ErrorMessage_Codec P self error_decoders).

(** The second dispatch level of a decoder: the variant decoder an error
    frame with the given ErrorCode is forwarded to. *)
Definition error_dispatch (f : func) (code : ErrorCode) : option variant_decoder :=
  match f with
  | codec_decode _ tbl => dict_get tbl code
  | _ => None
  end.

(** ** [cassandra/context.py] *)

Definition request_classes : list RequestClass :=
  [StartupMessage; RegisterMessage; BatchMessage; QueryMessage;
   ExecuteMessage; PrepareMessage; OptionsMessage; AuthResponseMessage].

Definition error_classes : list ErrorClass :=
  [UnavailableErrorMessage; ReadTimeoutErrorMessage; WriteTimeoutErrorMessage;
   IsBootstrappingErrorMessage; OverloadedErrorMessage;
   UnauthorizedErrorMessage; ServerError; ProtocolException; BadCredentials;
   TruncateError; ReadFailureMessage; FunctionFailureMessage;
   WriteFailureMessage; CDCWriteException; SyntaxException;
   InvalidRequestException; ConfigurationException; PreparedQueryNotFound;
   AlreadyExistsException].

Definition response_classes : list ResponseClass :=
  [ReadyMessage; EventMessage_Codec; ResultMessage_Codec;
   AuthenticateMessage; AuthSuccessMessage; AuthChallengeMessage;
   SupportedMessage].

Definition class_codec (P : Protocol) (c : ResponseClass) : codec :=
  Codec (codec_opcode P c) (decode c).

Definition protocol_versions : list ProtocolVersion := [V3; V4; V5].

(** [DriverContext._build_message_codec_registry] *)
Definition _build_message_codec_registry (P : Protocol)
  : M MessageCodecRegistry :=
  let* registry := MessageCodecRegistry_init in
  for_each protocol_versions (fun v =>
    for_each request_classes (fun message =>
      add_encoder registry v (request_opcode P message) (encode message)) >>
    let error_decoders :=
      map (fun e => (error_code P e, error_decode e)) error_classes in
    let* error_codec := ErrorMessage_Codec_new P error_decoders in
    for_each
      (map (class_codec P) response_classes ++ [error_codec])
      (fun codec =>
         add_decoder registry v (codec_opcode_of codec) (codec_decode_of codec))) >>
  ret registry.

(** ** [copy.deepcopy] on a map of maps of callables

    The copy of a dictionary is a new dictionary with the same keys in the
    same order, each value replaced by its own deep copy.  The copy of a
    bound method is the same function bound to the deep copy of what it
    was bound to: a class is copied as itself, so that a method bound to a
    class has a copy equal to it, while an error codec object is copied as
    a new object with the same table.  The memo makes a dictionary or an
    object reached twice be copied once.  Integers are returned
    unchanged. *)
Record memo := Memo {
  memo_dicts : gmap loc loc;
  memo_codecs : gmap loc loc
}.

Definition deepcopy_value (f : func) (mm : memo) : M (func * memo) :=
  match f with
  | codec_decode self tbl =>
      match memo_codecs mm !! self with
      | Some self' => ret (codec_decode self' tbl, mm)
      | None =>
          let* self' := new_codec in
          ret (codec_decode self' tbl,
               Memo (memo_dicts mm) (<[self := self']> (memo_codecs mm)))
      end
  | _ => ret (f, mm)
  end.

Fixpoint deepcopy_values (c : dict func) (mm : memo) : M (dict func * memo) :=
  match c with
  | [] => ret ([], mm)
  | (k, f) :: c' =>
      let* fm := deepcopy_value f mm in
      let* cm := deepcopy_values c' fm.2 in
      ret ((k, fm.1) :: cm.1, cm.2)
  end.

Definition deepcopy_inner (x : loc) (mm : memo) : M (loc * memo) :=
  match memo_dicts mm !! x with
  | Some y => ret (y, mm)
  | None =>
      let* c := read_inner x in
      let* y := new_inner in
      let* cm := deepcopy_values c
                   (Memo (<[x := y]> (memo_dicts mm)) (memo_codecs mm)) in
      write_inner y cm.1 >>
      ret (y, cm.2)
  end.

Fixpoint deepcopy_items (items : dict loc) (mm : memo) : M (dict loc) :=
  match items with
  | [] => ret []
  | (k, x) :: rest =>
      let* ym := deepcopy_inner x mm in
      let* rest' := deepcopy_items rest ym.2 in
      ret ((k, ym.1) :: rest')
  end.

Definition deepcopy (x : loc) : M loc :=
  let* m := read_outer x in
  let* y := new_outer in
  let* m' := deepcopy_items m (Memo ∅ ∅) in
  write_outer y m' >>
  ret y.

(** ** Protocol handlers *)

Record ProtocolHandler := Handler {
  handler_encoders : loc;
  handler_decoders : loc
}.

(** Modelled from the spec: the constructor of [_ProtocolHandler] (and of
    [ProtocolHandler]), defined in [cassandra/protocol.py], which is missing.
    A handler owns its own snapshot of the encoder and decoder maps, captured
    at construction time; the snapshot is not a live view of the maps it was
    built from. *)
Definition _ProtocolHandler_init (encoders decoders : loc) : M ProtocolHandler :=
  let* e := deepcopy encoders in
  let* d := deepcopy decoders in
  ret (Handler e d).

(** The entry a handler's maps hold for a version and an opcode: the
    function [encode] or [decode] of the handler looks up and invokes. *)
Definition lookup2 (σ : heap) (d : loc) (v : ProtocolVersion) (o : Opcode)
  : option func :=
  m ← outers σ !! d; i ← dict_get m v; c ← inners σ !! i; dict_get c o.

Definition handler_encoder σ (h : ProtocolHandler) v o : option func :=
  lookup2 σ (handler_encoders h) v o.

Definition handler_decoder σ (h : ProtocolHandler) v o : option func :=
  lookup2 σ (handler_decoders h) v o.

(** The whole content of a map of maps, with the references resolved. *)
Definition resolve (σ : heap) (d : loc) : option (dict (dict func)) :=
  m ← outers σ !! d;
  mapM (fun kv : Z * loc => c ← inners σ !! kv.2; Some (kv.1, c)) m.

(** [DriverContext]: the two lazily built attributes. *)
Record DriverContext := Context {
  _message_codec_registry : option MessageCodecRegistry;
  _protocol_handler : option ProtocolHandler
}.

Definition DriverContext_new : DriverContext := Context None None.

(** [DriverContext.message_codec_registry]: returns the registry and the
    context as the property leaves it. *)
Definition message_codec_registry (P : Protocol) (self : DriverContext)
  : M (MessageCodecRegistry * DriverContext) :=
  match _message_codec_registry self with
  | Some r => ret (r, self)
  | None =>
      let* r := _build_message_codec_registry P in
      ret (r, Context (Some r) (_protocol_handler self))
  end.

(** [DriverContext.protocol_handler] *)
Definition protocol_handler (P : Protocol) (self : DriverContext)
  : M (ProtocolHandler * DriverContext) :=
  match _protocol_handler self with
  | Some h => ret (h, self)
  | None =>
      let* rc := message_codec_registry P self in
      let* rc' := message_codec_registry P rc.2 in
      let* h := _ProtocolHandler_init (encoders rc.1) (decoders rc'.1) in
      ret (h, Context (_message_codec_registry rc'.2) (Some h))
  end.

(** ** [tests/integration/standard/test_custom_protocol_handler.py] *)

(** The body shared by the two custom handlers: deep copy, patch of the
    entry at the result opcode under every version, base constructor. *)
Definition custom_handler_init (P : Protocol) (c : CustomCodec)
    (encoders decoders : loc) : M ProtocolHandler :=
  let* decoders := deepcopy decoders in
  let* m := read_outer decoders in
  for_each (dict_keys m) (fun version =>
    let* i := outer_getitem decoders version in
    inner_setitem i (result_message_opcode P) (custom_decode c)) >>
  _ProtocolHandler_init encoders decoders.

(** [CustomTestRawRowType.__init__] *)
Definition CustomTestRawRowType_init (P : Protocol) encoders decoders :=
  custom_handler_init P CustomResultMessageRaw_Codec encoders decoders.

(** [CustomProtocolHandlerResultMessageTracked.__init__] *)
Definition CustomProtocolHandlerResultMessageTracked_init (P : Protocol)
    encoders decoders :=
  custom_handler_init P CustomResultMessageTracked_Codec encoders decoders.

(** ** Sequences of registrations *)

Inductive registration :=
| Encoder (v : ProtocolVersion) (o : Opcode) (f : func)
| Decoder (v : ProtocolVersion) (o : Opcode) (f : func).

Definition register (r : MessageCodecRegistry) (op : registration) : M unit :=
  match op with
  | Encoder v o f => add_encoder r v o f
  | Decoder v o f => add_decoder r v o f
  end.

Definition register_all (r : MessageCodecRegistry) (ops : list registration)
  : M unit :=
  for_each ops (register r).

(** The function passed to the most recent [add_encoder] call for exactly
    [(v, o)], if there is one. *)
Fixpoint last_encoder (ops : list registration) (v : ProtocolVersion)
    (o : Opcode) : option func :=
  match ops with
  | [] => None
  | op :: ops' =>
      match last_encoder ops' v o with
      | Some f => Some f
      | None =>
          match op with
          | Encoder v' o' f =>
              if Z.eqb v' v && Z.eqb o' o then Some f else None
          | Decoder _ _ _ => None
          end
      end
  end.

Fixpoint last_decoder (ops : list registration) (v : ProtocolVersion)
    (o : Opcode) : option func :=
  match ops with
  | [] => None
  | op :: ops' =>
      match last_decoder ops' v o with
      | Some f => Some f
      | None =>
          match op with
          | Decoder v' o' f =>
              if Z.eqb v' v && Z.eqb o' o then Some f else None
          | Encoder _ _ _ => None
          end
      end
  end.

(** The pure counterpart of [_add] on a resolved map of maps. *)
Definition add2 (t : dict (dict func)) (v : ProtocolVersion) (o : Opcode)
    (f : func) : dict (dict func) :=
  dict_set t v (dict_set (default [] (dict_get t v)) o f).

Definition look (t : dict (dict func)) (v : ProtocolVersion) (o : Opcode)
  : option func :=
  c ← dict_get t v; dict_get c o.

Definition enc_step (op : registration) (t : dict (dict func)) :=
  match op with
  | Encoder v o f => add2 t v o f
  | Decoder _ _ _ => t
  end.

Definition dec_step (op : registration) (t : dict (dict func)) :=
  match op with
  | Decoder v o f => add2 t v o f
  | Encoder _ _ _ => t
  end.

Definition enc_model (ops : list registration) : dict (dict func) :=
  fold_left (fun t op => enc_step op t) ops [].

Definition dec_model (ops : list registration) : dict (dict func) :=
  fold_left (fun t op => dec_step op t) ops [].

(** The inner dictionaries a map of maps refers to. *)
Definition refs (σ : heap) (d : loc) : list loc :=
  match outers σ !! d with Some m => m.*2 | None => [] end.

(** Every object of [σ] is in [σ'], unchanged. *)
Definition heap_le (σ σ' : heap) : Prop :=
  outers σ ⊆ outers σ' ∧ inners σ ⊆ inners σ' ∧ codecs σ ⊆ codecs σ'.

(** A registry whose two maps are distinct objects that share no inner
    dictionary: what the constructor establishes and the [add] methods
    keep. *)
Definition reg_inv (σ : heap) (r : MessageCodecRegistry) : Prop :=
  encoders r ≠ decoders r ∧
  is_Some (resolve σ (encoders r)) ∧
  is_Some (resolve σ (decoders r)) ∧
  NoDup (refs σ (encoders r) ++ refs σ (decoders r)).

(** The registrations of the default build, version by version; [self] is
    the error codec object created for the version. *)
Definition version_encoders (P : Protocol) (v : ProtocolVersion)
  : list registration :=
  map (fun m => Encoder v (request_opcode P m) (encode m)) request_classes.

Definition version_decoders (P : Protocol) (v : ProtocolVersion) (self : loc)
  : list registration :=
  map (fun c => Decoder v (codec_opcode_of c) (codec_decode_of c))
    (map (class_codec P) response_classes ++
     [ErrorMessage_Codec P self
        (map (fun e => (error_code P e, error_decode e)) error_classes)]).

Definition version_block (P : Protocol) (v : ProtocolVersion) (self : loc)
  : list registration :=
  version_encoders P v ++ version_decoders P v self.

Definition default_registrations (P : Protocol) (i3 i4 i5 : loc)
  : list registration :=
  version_block P V3 i3 ++ version_block P V4 i4 ++ version_block P V5 i5.

Global Instance RequestClass_eq_dec : EqDecision RequestClass.
Proof. solve_decision. Defined.

Global Instance ResponseClass_eq_dec : EqDecision ResponseClass.
Proof. solve_decision. Defined.

Global Instance ErrorClass_eq_dec : EqDecision ErrorClass.
Proof. solve_decision. Defined.

(** A registry that was created by its constructor and then received the
    registrations [ops], in this order. *)
Definition registry_after (ops : list registration) : M MessageCodecRegistry :=
  let* r := MessageCodecRegistry_init in
  register_all r ops >>
  ret r.

(** The content of the default registry: under every version the encoders
    of the request classes, and the decoders of the response codecs followed
    by the decoder of the error codec object [self] of the version. *)
Definition request_encoders (P : Protocol) : dict func :=
  dict_of_items (map (fun m => (request_opcode P m, encode m)) request_classes).

Definition error_table (P : Protocol) : dict variant_decoder :=
  dict_of_items (map (fun e => (error_code P e, error_decode e)) error_classes).

Definition response_decoders (P : Protocol) (self : loc) : dict func :=
  dict_set
    (dict_of_items
       (map (fun c => (codec_opcode P c, decode c)) response_classes))
    (error_codec_opcode P) (codec_decode self (error_table P)).

Definition default_encoders (P : Protocol) : dict (dict func) :=
  map (fun v => (v, request_encoders P)) protocol_versions.

Definition default_decoders (P : Protocol) (i3 i4 i5 : loc)
  : dict (dict func) :=
  [(V3, response_decoders P i3); (V4, response_decoders P i4);
   (V5, response_decoders P i5)].

(** What a callable does, whichever error codec object it is bound to: two
    callables with the same image are functionally identical. *)
Definition erase_self (f : func) : func :=
  match f with
  | codec_decode _ tbl => codec_decode 0%nat tbl
  | _ => f
  end.

Definition erase_dict (c : dict func) : dict func :=
  map (fun kf => (kf.1, erase_self kf.2)) c.

Definition erase_maps (t : dict (dict func)) : dict (dict func) :=
  map (fun kc => (kc.1, erase_dict kc.2)) t.

(** Is the callable bound to an error codec object? *)
Definition codec_bound (f : func) : bool :=
  match f with
  | codec_decode _ _ => true
  | _ => false
  end.

(** What a deep copy makes of a callable, the objects of [C] being those
    that existed before the copy: a method bound to a class is copied as a
    method equal to it; a method bound to an error codec object is copied
    as the same method bound to an object that is not in [C], which holds
    the same table. *)
Definition copied (C : gset loc) (f g : func) : Prop :=
  match f with
  | codec_decode _ tbl => ∃ self, g = codec_decode self tbl ∧ self ∉ C
  | _ => g = f
  end.

Definition copied_entry (C : gset loc) (x y : option func) : Prop :=
  match x, y with
  | Some f, Some g => copied C f g
  | None, None => True
  | _, _ => False
  end.

Definition copied_dict (C : gset loc) (c c' : dict func) : Prop :=
  Forall2 (fun kf kg => kf.1 = kg.1 ∧ copied C kf.2 kg.2) c c'.

Definition copied_maps (C : gset loc) (t t' : dict (dict func)) : Prop :=
  Forall2 (fun kc kc' => kc.1 = kc'.1 ∧ copied_dict C kc.2 kc'.2) t t'.

(** The outcome with [g] applied to the value returned. *)
Definition outcome_map {A B} (g : A → B) (x : outcome A) : outcome B :=
  match x with
  | Ret a σ => Ret (g a) σ
  | Raise e σ => Raise e σ
  | Fault => Fault
  end.

(** The store with its set of codec objects replaced. *)
Definition set_codecs (C : gset loc) (σ : heap) : heap :=
  Heap (outers σ) (inners σ) C.

Definition with_codecs {A} (C : gset loc) (x : outcome A) : outcome A :=
  match x with
  | Ret a σ => Ret a (set_codecs C σ)
  | Raise e σ => Raise e (set_codecs C σ)
  | Fault => Fault
  end.

(** A piece of code that neither reads nor changes the set of codec
    objects. *)
Definition codec_blind {A} (m : M A) : Prop :=
  ∀ C σ, m (set_codecs C σ) = with_codecs C (m σ).

(** The error dispatch of the default registry: under each of V3, V4 and V5
    the decoder registered at the error opcode is the [decode] of an error
    codec with one and the same table [tbl], of [n] entries, keyed by
    ErrorCode only, which holds the decoders of the error classes of the
    build and nothing else. *)
Definition error_dispatch_table (n : nat) (P : Protocol) (σ0 : heap) : Prop :=
  ∃ r σ tbl,
    _build_message_codec_registry P σ0 = Ret r σ ∧
    (∀ v, v ∈ [V3; V4; V5] →
       ∃ self, get_decoder r v (error_codec_opcode P) σ
                 = Ret (codec_decode self tbl) σ) ∧
    length tbl = n ∧
    (∀ self code d, error_dispatch (codec_decode self tbl) code = Some d ↔
                    ∃ e, code = error_code P e ∧ d = error_decode e).

(** What it means for the constructor [init] of a custom handler, called on
    the maps of [base], to override the result decoder by [c] only, every
    other entry of the handler being the very function that [base] holds. *)
Definition overrides_only_result (P : Protocol) (σ : heap)
    (base : ProtocolHandler) (init : loc → loc → M ProtocolHandler)
    (c : CustomCodec) : Prop :=
  ∃ h σ',
    init (handler_encoders base) (handler_decoders base) σ = Ret h σ' ∧
    (∀ v o, o ≠ result_message_opcode P →
       handler_decoder σ' h v o = handler_decoder σ' base v o) ∧
    (∀ v o, handler_encoder σ' h v o = handler_encoder σ' base v o) ∧
    (∀ v, is_Some (outers σ !! handler_decoders base ≫= fun m => dict_get m v) →
       handler_decoder σ' h v (result_message_opcode P) = Some (custom_decode c)).

(** The entry [y] of a handler is the copy of the entry [x] of its base:
    both are absent, or [y] is what a deep copy makes of [x].  Then [y] does
    what [x] does, and [y] is equal to [x] when [x] is not bound to an error
    codec object. *)
Definition entry_of_base (C : gset loc) (x y : option func) : Prop :=
  copied_entry C x y ∧
  erase_self <$> y = erase_self <$> x ∧
  (∀ f, x = Some f → codec_bound f = false → y = Some f).

(** The override of the result decoder by [c] only, where the entries that
    are not overridden are copies of the entries of [base]. *)
Definition overrides_only_result_in_copy (P : Protocol) (σ : heap)
    (base : ProtocolHandler) (init : loc → loc → M ProtocolHandler)
    (c : CustomCodec) : Prop :=
  ∃ h σ',
    init (handler_encoders base) (handler_decoders base) σ = Ret h σ' ∧
    (∀ v o, o ≠ result_message_opcode P →
       entry_of_base (codecs σ)
         (handler_decoder σ' base v o) (handler_decoder σ' h v o)) ∧
    (∀ v o, entry_of_base (codecs σ)
              (handler_encoder σ' base v o) (handler_encoder σ' h v o)) ∧
    (∀ v, is_Some (outers σ !! handler_decoders base ≫= fun m => dict_get m v) →
       handler_decoder σ' h v (result_message_opcode P) = Some (custom_decode c)).

(** What it means for the constructor [init] of a custom handler, called on
    the maps of [base], to leave [base] unmodified. *)
Definition leaves_base_unmodified (σ : heap) (base : ProtocolHandler)
    (init : loc → loc → M ProtocolHandler) : Prop :=
  ∃ h σ',
    init (handler_encoders base) (handler_decoders base) σ = Ret h σ' ∧
    heap_le σ σ' ∧
    handler_decoders h ≠ handler_decoders base ∧
    resolve σ' (handler_encoders base) = resolve σ (handler_encoders base) ∧
    resolve σ' (handler_decoders base) = resolve σ (handler_decoders base) ∧
    (∀ v o, handler_encoder σ' base v o = handler_encoder σ base v o) ∧
    (∀ v o, handler_decoder σ' base v o = handler_decoder σ base v o).

(** The default handler of a [DriverContext], built in the empty store for
    the numbers of the native protocol. *)
Definition default_handler : ProtocolHandler := Handler 2 3.

Definition default_store : heap :=
  match protocol_handler native_protocol DriverContext_new empty_heap with
  | Ret _ σ => σ
  | _ => empty_heap
  end.

(** A registry holding one encoder and one decoder, as the constructor and
    two registrations leave it in the empty store. *)
Definition small_store : heap :=
  Heap {[ 0%nat := [(4, 0%nat)]; 1%nat := [(4, 1%nat)] ]}
       {[ 0%nat := [(7, encode QueryMessage)];
          1%nat := [(8, decode ResultMessage_Codec)] ]}
       ∅.

(** A map of maps without duplicate keys, at the two levels. *)
Definition keys_unique (t : dict (dict func)) : Prop :=
  NoDup (dict_keys t) ∧ Forall (fun kc => NoDup (dict_keys kc.2)) t.

(** ** Decoding the rows of a result

    [decode_results_rows] of the two custom result codecs reads from a
    stream through [decode_results_metadata], [read_int] and [decode_row],
    and the tracking codec parses the cells with [from_binary].  These are
    defined in [cassandra/protocol.py] and [cassandra/cqltypes.py], which
    are not among the sources at hand: they are parameters, each one free
    to fail with an exception.  A column is a tuple whose items 2 and 3 are
    its name and its type. *)
Record RowCodec := {
  stream : Type;
  paging : Type;
  column : Type;
  colname : Type;
  ctype : Type;
  metadata_id : Type;
  value : Type;
  parsed : Type;
  usermap : Type;
  derr : Type;
  ctype_eq_dec :: EqDecision ctype;
  ctype_countable :: Countable ctype;
  decode_results_metadata :
    CustomCodec → usermap → stream →
    (paging * list column * metadata_id + derr) * stream;
  read_int : stream → (Z + derr) * stream;
  decode_row : CustomCodec → nat → stream → (list value + derr) * stream;
  from_binary : ctype → value → ProtocolVersion → parsed + derr;
  item2 : column → colname;
  item3 : column → ctype
}.

(** The stream being read and the class attribute [checked_rev_row_set] of
    the tracking codec. *)
Record dstate (R : RowCodec) := DState {
  d_stream : stream R;
  d_checked : gset (ctype R)
}.
Arguments DState {R} _ _.
Arguments d_stream {R} _.
Arguments d_checked {R} _.

Inductive dout (R : RowCodec) (A : Type) :=
| DRet (a : A) (s : dstate R)
| DRaise (e : derr R) (s : dstate R).
Arguments DRet {R A} a s.
Arguments DRaise {R A} e s.

Definition D (R : RowCodec) (A : Type) : Type := dstate R → dout R A.

Definition dret {R A} (a : A) : D R A := fun s => DRet a s.

Definition dbind {R A B} (m : D R A) (k : A → D R B) : D R B :=
  fun s =>
    match m s with
    | DRet a s' => k a s'
    | DRaise e s' => DRaise e s'
    end.

(** A call that reads from the stream. *)
Definition on_stream {R A} (g : stream R → (A + derr R) * stream R) : D R A :=
  fun s =>
    match g (d_stream s) with
    | (inl a, st) => DRet a (DState st (d_checked s))
    | (inr e, st) => DRaise e (DState st (d_checked s))
    end.

(** A call that only computes. *)
Definition computed {R A} (x : A + derr R) : D R A :=
  fun s => match x with inl a => DRet a s | inr e => DRaise e s end.

(** [[cls.decode_row(f, ncols) for _ in range(n)]] *)
Fixpoint decode_rows (R : RowCodec) (cls : CustomCodec) (n ncols : nat)
  : D R (list (list (value R))) :=
  match n with
  | O => dret []
  | S n' =>
      dbind (on_stream (decode_row R cls ncols)) (fun row =>
      dbind (decode_rows R cls n' ncols) (fun rows =>
      dret (row :: rows)))
  end.

(** [CustomResultMessageRaw.Codec.decode_results_rows] *)
Definition Raw_decode_results_rows (R : RowCodec)
    (protocol_version : ProtocolVersion) (user_type_map : usermap R)
  : D R (paging R * list (ctype R) *
         (list (colname R) * list (list (value R))) * metadata_id R) :=
  dbind (on_stream (decode_results_metadata R CustomResultMessageRaw_Codec
                      user_type_map)) (fun meta =>
  dbind (on_stream (read_int R)) (fun rowcount =>
  dbind (decode_rows R CustomResultMessageRaw_Codec (Z.to_nat rowcount)
           (length meta.1.2)) (fun rows =>
  let colnames := map (item2 R) meta.1.2 in
  let coltypes := map (item3 R) meta.1.2 in
  dret (meta.1.1, coltypes, (colnames, rows), meta.2)))).

(** [tuple(ctype.from_binary(val, protocol_version)
          for ctype, val in zip(coltypes, row))] *)
Fixpoint parse_row (R : RowCodec) (protocol_version : ProtocolVersion)
    (coltypes : list (ctype R)) (row : list (value R)) : D R (list (parsed R)) :=
  match coltypes, row with
  | ct :: coltypes', val :: row' =>
      dbind (computed (from_binary R ct val protocol_version)) (fun p =>
      dbind (parse_row R protocol_version coltypes' row') (fun ps =>
      dret (p :: ps)))
  | _, _ => dret []
  end.

Fixpoint parse_rows (R : RowCodec) (protocol_version : ProtocolVersion)
    (coltypes : list (ctype R)) (rows : list (list (value R)))
  : D R (list (list (parsed R))) :=
  match rows with
  | [] => dret []
  | row :: rows' =>
      dbind (parse_row R protocol_version coltypes row) (fun t =>
      dbind (parse_rows R protocol_version coltypes rows') (fun ts =>
      dret (t :: ts)))
  end.

(** [cls.checked_rev_row_set.update(coltypes)] *)
Definition update_checked {R : RowCodec} (coltypes : list (ctype R)) : D R unit :=
  fun s => DRet tt (DState (d_stream s) (d_checked s ∪ list_to_set coltypes)).

(** [CustomResultMessageTracked.Codec.decode_results_rows] *)
Definition Tracked_decode_results_rows (R : RowCodec)
    (protocol_version : ProtocolVersion) (user_type_map : usermap R)
  : D R (paging R * list (ctype R) *
         (list (colname R) * list (list (parsed R))) * metadata_id R) :=
  dbind (on_stream (decode_results_metadata R CustomResultMessageTracked_Codec
                      user_type_map)) (fun meta =>
  dbind (on_stream (read_int R)) (fun rowcount =>
  dbind (decode_rows R CustomResultMessageTracked_Codec (Z.to_nat rowcount)
           (length meta.1.2)) (fun rows =>
  let colnames := map (item2 R) meta.1.2 in
  let coltypes := map (item3 R) meta.1.2 in
  dbind (update_checked coltypes) (fun _ =>
  dbind (parse_rows R protocol_version coltypes rows) (fun parsed_rows =>
  dret (meta.1.1, coltypes, (colnames, parsed_rows), meta.2)))))).

(** A small instance: the stream is a list of integers, a column is a pair
    of a name and a type, both integers, and the end of the stream is the
    only failure. *)
Definition take_ints (n : nat) (s : list Z) : (list Z + unit) * list Z :=
  if decide (n ≤ length s)%nat then (inl (take n s), drop n s) else (inr tt, []).

Fixpoint pair_up (l : list Z) : list (Z * Z) :=
  match l with
  | a :: b :: l' => (a, b) :: pair_up l'
  | _ => []
  end.

Definition toy_rows : RowCodec := {|
  stream := list Z;
  paging := unit;
  column := Z * Z;
  colname := Z;
  ctype := Z;
  metadata_id := unit;
  value := Z;
  parsed := Z;
  usermap := unit;
  derr := unit;
  decode_results_metadata _ _ s :=
    match s with
    | n :: s' =>
        match take_ints (2 * Z.to_nat n) s' with
        | (inl l, s'') => (inl (tt, pair_up l, tt), s'')
        | (inr e, s'') => (inr e, s'')
        end
    | [] => (inr tt, [])
    end;
  read_int s := match s with n :: s' => (inl n, s') | [] => (inr tt, []) end;
  decode_row _ n s := take_ints n s;
  from_binary ct val _ := inl (ct + val);
  item2 := fst;
  item3 := snd
|}.

(** ** Notions used by the proofs *)

Definition entry_of (σ : heap) (kv : Z * loc) (kc : Z * dict func) : Prop :=
  kv.1 = kc.1 ∧ inners σ !! kv.2 = Some kc.2.

(** What [_add] leaves alone: the other outer dictionaries, and the inner
    dictionaries that the map does not refer to. *)
Definition add_frame (σ σ' : heap) (d : loc) : Prop :=
  (∀ d', d' ≠ d → outers σ' !! d' = outers σ !! d') ∧
  (∀ i, is_Some (inners σ !! i) → i ∉ refs σ d →
        inners σ' !! i = inners σ !! i) ∧
  (∀ i, is_Some (inners σ !! i) → is_Some (inners σ' !! i)) ∧
  (refs σ' d = refs σ d ∨
   ∃ i, inners σ !! i = None ∧ refs σ' d = refs σ d ++ [i]).

(** A map of maps [d'] that shares nothing with [d]. *)
Definition apart (σ : heap) (d d' : loc) : Prop :=
  d' ≠ d ∧ ∀ i, i ∈ refs σ d' → i ∉ refs σ d.

(** The memo relates inner dictionaries of the store [σ0] the copy started
    from to new dictionaries holding the copy of their content, and codec
    objects to new objects. *)
Definition memo_codecs_ok (C : gset loc) (mm : memo) : Prop :=
  ∀ s s', memo_codecs mm !! s = Some s' → s' ∉ C.

Definition memo_ok (σ0 σ : heap) (mm : memo) : Prop :=
  (∀ x y, memo_dicts mm !! x = Some y →
     inners σ0 !! y = None ∧
     ∃ c c', inners σ0 !! x = Some c ∧ inners σ !! y = Some c' ∧
             copied_dict (codecs σ0) c c') ∧
  memo_codecs_ok (codecs σ0) mm.

(** The codec objects that the default build creates in a store whose
    codec objects are [C], one for each version. *)
Definition build_codecs (C : gset loc) : loc * loc * loc :=
  let i3 := fresh C in
  let i4 := fresh ({[ i3 ]} ∪ C) in
  let i5 := fresh ({[ i4 ]} ∪ ({[ i3 ]} ∪ C)) in
  (i3, i4, i5).

(** The patch loop of the custom handlers, for an opcode [op] and a
    function [f]. *)
Section patch_defs.
Variables (op : Z) (f : func).

(** The content of [kc'] is the one of [kc] but for the entry at [op]. *)
Definition patched (kc kc' : Z * list (Z * func)) : Prop :=
  kc.1 = kc'.1 ∧ ∀ o, o ≠ op → dict_get kc'.2 o = dict_get kc.2 o.

Definition entry_patched (σ : heap) (kv : Z * nat) (kc : Z * list (Z * func))
  : Prop :=
  kv.1 = kc.1 ∧
  ∃ c', inners σ !! kv.2 = Some c' ∧
        ∀ o, o ≠ op → dict_get c' o = dict_get kc.2 o.

Definition patch_done (σ : heap) (m : list (Z * nat)) (k : Z) : Prop :=
  ∃ i c', dict_get m k = Some i ∧ inners σ !! i = Some c' ∧
          dict_get c' op = Some f.

Definition patch_body (d : nat) (version : Z) : M unit :=
  let* i := outer_getitem d version in inner_setitem i op f.

End patch_defs.

Global Instance reg_inv_dec σ r : Decision (reg_inv σ r).
Proof. unfold reg_inv. apply _. Defined.

(** * Properties *)

(** ** Dictionaries *)

Section dict_facts.
Context {V : Type}.
Implicit Types (d : dict V) (k : Z) (v : V).

Lemma dict_get_set_eq d k v : dict_get (dict_set d k v) k = Some v.
Proof.
  induction d as [|[k' v'] d IH]; simpl.
  - by rewrite Z.eqb_refl.
  - destruct (Z.eqb_spec k' k) as [->|Hne]; simpl.
    + by rewrite Z.eqb_refl.
    + by destruct (Z.eqb_spec k' k).
Qed.

Lemma dict_get_set_ne d k k' v :
  k ≠ k' → dict_get (dict_set d k v) k' = dict_get d k'.
Proof.
  intros Hne. induction d as [|[k0 v0] d IH]; simpl.
  - by destruct (Z.eqb_spec k k').
  - destruct (Z.eqb_spec k0 k) as [->|Hk]; simpl.
    + by destruct (Z.eqb_spec k k').
    + by rewrite IH.
Qed.

Lemma dict_get_set d k k' v :
  dict_get (dict_set d k v) k' = if Z.eqb k k' then Some v else dict_get d k'.
Proof.
  destruct (Z.eqb_spec k k') as [->|Hne].
  - apply dict_get_set_eq.
  - by apply dict_get_set_ne.
Qed.

Lemma dict_set_absent d k v :
  dict_get d k = None → dict_set d k v = d ++ [(k, v)].
Proof.
  induction d as [|[k' v'] d IH]; simpl; [done|].
  destruct (Z.eqb_spec k' k); [done|]. intros H. by rewrite IH.
Qed.

Lemma dict_get_elem_of d k v : dict_get d k = Some v → (k, v) ∈ d.
Proof.
  induction d as [|[k' v'] d IH]; simpl; [done|].
  destruct (Z.eqb_spec k' k) as [->|Hne].
  - intros [= ->]. left.
  - intros H. right. by apply IH.
Qed.

Lemma dict_get_is_Some d k : is_Some (dict_get d k) ↔ k ∈ dict_keys d.
Proof.
  unfold dict_keys. induction d as [|[k' v'] d IH]; simpl.
  - split; [by intros [? ?]|by intros ?%elem_of_nil].
  - destruct (Z.eqb_spec k' k) as [->|Hne].
    + split; [intros _; left|eauto].
    + rewrite IH, elem_of_cons. naive_solver.
Qed.

Lemma dict_get_nodup d k v :
  NoDup (dict_keys d) → (k, v) ∈ d → dict_get d k = Some v.
Proof.
  unfold dict_keys. induction d as [|[k' v'] d IH]; simpl.
  - by intros _ ?%elem_of_nil.
  - intros [Hk Hd]%NoDup_cons [[= -> ->]|Hin]%elem_of_cons.
    + by rewrite Z.eqb_refl.
    + destruct (Z.eqb_spec k' k) as [->|Hne]; [|by apply IH].
      destruct Hk. apply list_elem_of_fmap. by exists (k, v).
Qed.

Lemma dict_of_items_nodup (items : list (Z * V)) :
  NoDup items.*1 → dict_of_items items = items.
Proof.
  unfold dict_of_items. intros Hnd.
  enough (∀ acc, NoDup (acc ++ items).*1 →
    fold_left (fun d kv => dict_set d kv.1 kv.2) items acc = acc ++ items)
    as H by exact (H [] Hnd).
  clear Hnd. induction items as [|[k v] items IH]; intros acc Hnd; simpl.
  - by rewrite app_nil_r.
  - rewrite dict_set_absent.
    + rewrite IH; rewrite <-app_assoc; done.
    + rewrite fmap_app in Hnd. apply NoDup_app in Hnd as (_ & Hdis & _).
      destruct (dict_get acc k) as [x|] eqn:E; [|done].
      apply dict_get_elem_of in E. destruct (Hdis k).
      * apply list_elem_of_fmap. by exists (k, x).
      * simpl. left.
Qed.
End dict_facts.

(** ** Resolved maps *)

Lemma resolve_Some σ d t :
  resolve σ d = Some t ↔
  ∃ m, outers σ !! d = Some m ∧ Forall2 (entry_of σ) m t.
Proof.
  unfold resolve. destruct (outers σ !! d) as [m|]; simpl.
  - split.
    + intros H%mapM_Some_1. exists m. split; [done|].
      eapply Forall2_impl; [exact H|]. intros [k i] [k' c]; simpl.
      destruct (inners σ !! i) as [c0|] eqn:E; simpl; [|done].
      intros [= -> ->]. by split.
    + intros (m' & [= <-] & H). apply mapM_Some_2.
      eapply Forall2_impl; [exact H|]. intros [k i] [k' c] [E1 E2]; simpl in *.
      by rewrite E2, E1.
  - split; [done|]. by intros (? & ? & _).
Qed.

Lemma entries_get σ m t k :
  Forall2 (entry_of σ) m t →
  match dict_get m k with
  | Some i => ∃ c, dict_get t k = Some c ∧ inners σ !! i = Some c
  | None => dict_get t k = None
  end.
Proof.
  induction 1 as [|[k1 i] [k2 c] m t [E1 E2] _ IH]; simpl in *; [done|].
  subst k2. destruct (Z.eqb_spec k1 k); eauto.
Qed.

Lemma lookup2_resolve σ d t v o :
  resolve σ d = Some t → lookup2 σ d v o = look t v o.
Proof.
  intros (m & Hm & Hmt)%resolve_Some. unfold lookup2, look. rewrite Hm; simpl.
  pose proof (entries_get σ m t v Hmt) as H.
  destruct (dict_get m v) as [i|]; simpl.
  - destruct H as (c & -> & ->). done.
  - by rewrite H.
Qed.

Lemma resolve_refs_alloc σ d t i :
  resolve σ d = Some t → i ∈ refs σ d → is_Some (inners σ !! i).
Proof.
  intros (m & Hm & Hmt)%resolve_Some. unfold refs. rewrite Hm.
  intros ([k i'] & -> & Hin)%list_elem_of_fmap. simpl.
  apply list_elem_of_lookup_1 in Hin as [n Hn].
  destruct (Forall2_lookup_l _ _ _ _ _ Hmt Hn) as (kc & _ & [_ H]).
  simpl in H. eauto.
Qed.

Lemma resolve_le σ σ' d t :
  heap_le σ σ' → resolve σ d = Some t → resolve σ' d = Some t.
Proof.
  intros (Ho & Hi & _). rewrite !resolve_Some. intros (m & Hm & Hmt).
  exists m. split; [by eapply lookup_weaken|].
  eapply Forall2_impl; [exact Hmt|]. intros kv kc [E1 E2].
  split; [done|]. by eapply lookup_weaken.
Qed.

Lemma refs_le σ σ' d :
  heap_le σ σ' → is_Some (outers σ !! d) → refs σ' d = refs σ d.
Proof.
  intros [Ho _] [m Hm]. unfold refs.
  by rewrite Hm, (lookup_weaken _ _ _ _ Hm Ho).
Qed.

Global Instance heap_le_preorder : PreOrder heap_le.
Proof.
  split.
  - by intros σ.
  - intros σ1 σ2 σ3 (?&?&?) (?&?&?). split_and!; by etrans.
Qed.

(** ** [_add] and [_get] on the store *)

Lemma _add_present σ d v o f m i c :
  outers σ !! d = Some m → dict_get m v = Some i → inners σ !! i = Some c →
  _add d v o f σ =
    Ret tt (Heap (outers σ) (<[i := dict_set c o f]> (inners σ)) (codecs σ)).
Proof.
  intros Hm Hv Hc.
  unfold _add, bind, outer_contains, outer_getitem, inner_setitem,
    read_outer, read_inner, write_inner, dict_contains, bind, ret.
  by rewrite Hm, Hv; simpl; rewrite Hm, Hv, Hc.
Qed.

Lemma _add_absent σ d v o f m :
  outers σ !! d = Some m → dict_get m v = None →
  _add d v o f σ =
    Ret tt (Heap (<[d := m ++ [(v, fresh (dom (inners σ)))]]> (outers σ))
                 (<[fresh (dom (inners σ)) := [(o, f)]]> (inners σ))
                 (codecs σ)).
Proof.
  intros Hm Hv.
  unfold _add, bind, outer_contains, outer_getitem, outer_setitem,
    inner_setitem, new_inner, read_outer, read_inner, write_inner,
    write_outer, dict_contains, bind, ret.
  rewrite Hm, Hv; simpl. rewrite Hm; simpl.
  rewrite lookup_insert_eq, dict_get_set_eq; simpl.
  rewrite lookup_insert_eq; simpl.
  by rewrite insert_insert_eq, (dict_set_absent m v _ Hv).
Qed.

Lemma _get_resolve σ d t v o :
  resolve σ d = Some t →
  _get d v o σ =
    match look t v o with
    | Some f => Ret f σ
    | None => Raise (ValueError (codec_error_message o v)) σ
    end.
Proof.
  intros (m & Hm & Hmt)%resolve_Some.
  pose proof (entries_get σ m t v Hmt) as H.
  unfold _get, try_except_KeyError, bind, outer_getitem, inner_getitem,
    read_outer, read_inner, bind, ret, raise, look.
  rewrite Hm. destruct (dict_get m v) as [i|]; simpl.
  - destruct H as (c & -> & ->); simpl. by destruct (dict_get c o).
  - by rewrite H.
Qed.

Lemma entries_frame σ σ' (m : dict loc) (t : dict (dict func)) :
  Forall2 (entry_of σ) m t →
  (∀ j, j ∈ m.*2 → inners σ' !! j = inners σ !! j) →
  Forall2 (entry_of σ') m t.
Proof.
  induction 1 as [|[k1 i1] [k2 c2] m t [E1 E2] Hmt IH]; simpl in *;
    intros Hsame; constructor.
  - split; [done|]. simpl. rewrite Hsame; [done|]. left.
  - apply IH. intros j Hj. apply Hsame. by right.
Qed.

Lemma entries_set_present σ (m : dict loc) (t : dict (dict func)) v i
    (c' : dict func) :
  Forall2 (entry_of σ) m t → NoDup m.*2 → dict_get m v = Some i →
  Forall2 (entry_of (Heap (outers σ) (<[i := c']> (inners σ)) (codecs σ)))
    m (dict_set t v c').
Proof.
  induction 1 as [|[k1 i1] [k2 c2] m t [E1 E2] Hmt IH]; simpl in *; [done|].
  subst k2. intros [Hi1 Hnd]%NoDup_cons. destruct (Z.eqb_spec k1 v) as [->|Hne].
  - intros [= ->]. constructor.
    + split; simpl; [done|]. by rewrite lookup_insert_eq.
    + eapply entries_frame; [exact Hmt|]. simpl. intros j Hj.
      rewrite lookup_insert_ne; [done|]. by intros ->.
  - intros Hv. constructor; [|by apply IH].
    split; simpl; [done|]. rewrite lookup_insert_ne; [done|].
    intros ->. apply Hi1. apply list_elem_of_fmap. exists (v, i1).
    split; [done|]. by apply dict_get_elem_of.
Qed.

Lemma entries_get_None σ (m : dict loc) (t : dict (dict func)) v :
  Forall2 (entry_of σ) m t → dict_get m v = None → dict_get t v = None.
Proof. intros H Hv. pose proof (entries_get σ m t v H) as H'. by rewrite Hv in H'. Qed.

Lemma entries_get_Some σ (m : dict loc) (t : dict (dict func)) v i :
  Forall2 (entry_of σ) m t → dict_get m v = Some i →
  ∃ c, dict_get t v = Some c ∧ inners σ !! i = Some c.
Proof. intros H Hv. pose proof (entries_get σ m t v H) as H'. by rewrite Hv in H'. Qed.

(** [_add] on a map of maps with unshared inner dictionaries acts as
    [add2] on its content. *)
Lemma _add_resolve σ d t v o f :
  resolve σ d = Some t → NoDup (refs σ d) →
  ∃ σ', _add d v o f σ = Ret tt σ' ∧
        resolve σ' d = Some (add2 t v o f) ∧
        NoDup (refs σ' d) ∧
        add_frame σ σ' d.
Proof.
  intros Hres Hnd. pose proof Hres as (m & Hm & Hmt)%resolve_Some.
  unfold refs in Hnd. rewrite Hm in Hnd.
  destruct (dict_get m v) as [i|] eqn:Hv.
  - destruct (entries_get_Some _ _ _ _ _ Hmt Hv) as (c & Htv & Hc).
    eexists. split; [by eapply _add_present|].
    unfold add2, add_frame, refs. rewrite Htv; simpl. rewrite Hm.
    split_and!.
    + apply resolve_Some. exists m. split; [done|].
      by apply entries_set_present.
    + done.
    + done.
    + intros j _ Hj. rewrite lookup_insert_ne; [done|]. intros ->.
      apply Hj. apply list_elem_of_fmap. exists (v, j).
      split; [done|]. by apply dict_get_elem_of.
    + intros j Hj. destruct (decide (i = j)) as [->|].
      * by rewrite lookup_insert_eq.
      * by rewrite lookup_insert_ne.
    + by left.
  - pose proof (entries_get_None _ _ _ _ Hmt Hv) as Htv.
    set (i := fresh (dom (inners σ))).
    assert (inners σ !! i = None) as Hfresh.
    { apply not_elem_of_dom. apply is_fresh. }
    assert (i ∉ m.*2) as Hi.
    { intros Hin. destruct (resolve_refs_alloc σ d t i Hres) as [? ?].
      - unfold refs. by rewrite Hm.
      - congruence. }
    eexists. split; [by eapply _add_absent|]. fold i.
    unfold add2, add_frame, refs; simpl. rewrite Htv, Hm; simpl.
    rewrite lookup_insert_eq. rewrite (dict_set_absent t v _ Htv).
    rewrite fmap_app; simpl. split_and!.
    + apply resolve_Some. exists (m ++ [(v, i)]). simpl.
      rewrite lookup_insert_eq. split; [done|].
      apply Forall2_app.
      * eapply entries_frame; [exact Hmt|]. simpl. intros j Hj.
        rewrite lookup_insert_ne; [done|]. by intros ->.
      * constructor; [|constructor]. split; simpl; [done|].
        by rewrite lookup_insert_eq.
    + apply NoDup_app. split_and!; [done| |apply NoDup_singleton].
      intros j Hj ->%list_elem_of_singleton. done.
    + intros d' Hd'. by rewrite lookup_insert_ne.
    + intros j [? Hj] _. rewrite lookup_insert_ne; [done|]. intros ->. congruence.
    + intros j [? Hj]. rewrite lookup_insert_ne; [eauto|]. intros ->. congruence.
    + right. by exists i.
Qed.

Lemma add_frame_apart σ σ' d d' t' :
  add_frame σ σ' d → apart σ d d' → resolve σ d' = Some t' →
  resolve σ' d' = Some t' ∧ refs σ' d' = refs σ d' ∧ apart σ' d d'.
Proof.
  intros (Hout & Hin & Hmono & Hrefs) [Hne Hdis] Hres.
  pose proof Hres as (m & Hm & Hmt)%resolve_Some.
  assert (refs σ' d' = refs σ d') as Hsame.
  { unfold refs. by rewrite Hout. }
  split_and!; [|done|split; [done|]].
  - apply resolve_Some. exists m. rewrite Hout by done. split; [done|].
    eapply entries_frame; [exact Hmt|]. intros j Hj. apply Hin.
    + eapply resolve_refs_alloc; [exact Hres|]. unfold refs. by rewrite Hm.
    + apply Hdis. unfold refs. by rewrite Hm.
  - intros i. rewrite Hsame. intros Hi.
    destruct Hrefs as [->|(j & Hj & ->)]; [by apply Hdis|].
    rewrite elem_of_app, list_elem_of_singleton. intros [?| ->].
    + by eapply Hdis.
    + destruct (resolve_refs_alloc σ d' t' j Hres Hi). congruence.
Qed.

Lemma reg_inv_apart σ r :
  reg_inv σ r →
  apart σ (encoders r) (decoders r) ∧ apart σ (decoders r) (encoders r).
Proof.
  intros (Hne & _ & _ & (_ & Hdis & _)%NoDup_app). split; split.
  - done.
  - intros i Hd He. by eapply Hdis.
  - done.
  - intros i He Hd. by eapply Hdis.
Qed.

Lemma register_step σ r op te td :
  reg_inv σ r →
  resolve σ (encoders r) = Some te → resolve σ (decoders r) = Some td →
  ∃ σ', register r op σ = Ret tt σ' ∧ reg_inv σ' r ∧
        resolve σ' (encoders r) = Some (enc_step op te) ∧
        resolve σ' (decoders r) = Some (dec_step op td) ∧
        (add_frame σ σ' (encoders r) ∧ refs σ' (decoders r) = refs σ (decoders r)
         ∨ add_frame σ σ' (decoders r) ∧ refs σ' (encoders r) = refs σ (encoders r)).
Proof.
  intros Hinv He Hd. pose proof (reg_inv_apart _ _ Hinv) as [Hde Hed].
  destruct Hinv as (Hne & _ & _ & (Hnde & _ & Hndd)%NoDup_app).
  destruct op as [v o f|v o f]; simpl; unfold add_encoder, add_decoder.
  - destruct (_add_resolve σ (encoders r) te v o f He Hnde)
      as (σ' & Hrun & He' & Hnd' & Hfr).
    destruct (add_frame_apart _ _ _ _ _ Hfr Hde Hd) as (Hd' & Hrd & [_ Hap]).
    exists σ'. split_and!; eauto.
    split_and!; eauto. rewrite Hrd in *. apply NoDup_app. split_and!; [done| |done].
    intros i Hi Hi'. by eapply Hap.
  - destruct (_add_resolve σ (decoders r) td v o f Hd Hndd)
      as (σ' & Hrun & Hd' & Hnd' & Hfr).
    destruct (add_frame_apart _ _ _ _ _ Hfr Hed He) as (He' & Hre & [_ Hap]).
    exists σ'. split_and!; eauto.
    split_and!; eauto. rewrite Hre in *. apply NoDup_app. split_and!; [done| |done].
    intros i Hi Hi'. by eapply Hap.
Qed.

Lemma register_all_steps σ r ops te td :
  reg_inv σ r →
  resolve σ (encoders r) = Some te → resolve σ (decoders r) = Some td →
  ∃ σ', register_all r ops σ = Ret tt σ' ∧ reg_inv σ' r ∧
        resolve σ' (encoders r) =
          Some (fold_left (fun t op => enc_step op t) ops te) ∧
        resolve σ' (decoders r) =
          Some (fold_left (fun t op => dec_step op t) ops td).
Proof.
  revert σ te td. induction ops as [|op ops IH]; intros σ te td Hinv He Hd.
  - exists σ. by split_and!.
  - destruct (register_step σ r op te td Hinv He Hd)
      as (σ1 & Hrun & Hinv1 & He1 & Hd1 & _).
    destruct (IH σ1 _ _ Hinv1 He1 Hd1) as (σ' & Hrun' & ?).
    exists σ'. split; [|done].
    unfold register_all in *. simpl. unfold bind. by rewrite Hrun.
Qed.

Lemma MessageCodecRegistry_init_spec σ :
  ∃ r σ', MessageCodecRegistry_init σ = Ret r σ' ∧ reg_inv σ' r ∧
          resolve σ' (encoders r) = Some [] ∧
          resolve σ' (decoders r) = Some [] ∧
          (encoders r ∉ dom (outers σ)) ∧ (decoders r ∉ dom (outers σ)) ∧
          heap_le σ σ'.
Proof.
  unfold MessageCodecRegistry_init, bind, new_outer, ret; simpl.
  set (e := fresh (dom (outers σ))).
  set (d := fresh (dom (<[e:=[]]> (outers σ)))).
  assert (e ∉ dom (outers σ)) as He by apply is_fresh.
  assert (d ∉ dom (<[e:=[]]> (outers σ))) as Hd by apply is_fresh.
  clearbody e d.
  assert (e ≠ d ∧ d ∉ dom (outers σ)) as [Hne Hd'].
  { rewrite dom_insert in Hd. set_solver. }
  eexists _, _. split; [done|]. unfold reg_inv, resolve, refs; simpl.
  rewrite lookup_insert_eq, lookup_insert_ne, lookup_insert_eq by done; simpl.
  split_and!; eauto using NoDup_nil_2.
  split_and!; simpl; [|done..].
  etrans; apply insert_subseteq; [by apply not_elem_of_dom|].
  rewrite lookup_insert_ne by done. by apply not_elem_of_dom.
Qed.

(** ** Code that does not look at the codec objects *)

Lemma set_codecs_same σ : set_codecs (codecs σ) σ = σ.
Proof. by destruct σ. Qed.

Lemma codec_blind_codecs {A} (m : M A) σ a σ' :
  codec_blind m → m σ = Ret a σ' → codecs σ' = codecs σ.
Proof.
  intros Hm Hrun. specialize (Hm (codecs σ) σ).
  rewrite set_codecs_same, Hrun in Hm. simpl in Hm. injection Hm as Hm.
  by rewrite Hm.
Qed.

Lemma codec_blind_ret {A} (a : A) : codec_blind (ret a).
Proof. done. Qed.

Lemma codec_blind_raise {A} e : codec_blind (raise (A := A) e).
Proof. done. Qed.

Lemma codec_blind_bind {A B} (m : M A) (k : A → M B) :
  codec_blind m → (∀ a, codec_blind (k a)) → codec_blind (bind m k).
Proof.
  intros Hm Hk C σ. unfold bind. rewrite Hm.
  destruct (m σ) as [a σ'| |]; simpl; [apply Hk|done..].
Qed.

Lemma codec_blind_for_each {A} (xs : list A) (f : A → M unit) :
  (∀ x, codec_blind (f x)) → codec_blind (for_each xs f).
Proof.
  intros Hf. induction xs as [|x xs IH]; simpl; [done|].
  apply codec_blind_bind; [apply Hf|done].
Qed.

Lemma codec_blind_read_outer d : codec_blind (read_outer d).
Proof. intros C σ. unfold read_outer. simpl. by destruct (outers σ !! d). Qed.

Lemma codec_blind_read_inner i : codec_blind (read_inner i).
Proof. intros C σ. unfold read_inner. simpl. by destruct (inners σ !! i). Qed.

Lemma codec_blind__add d v o f : codec_blind (_add d v o f).
Proof.
  unfold _add, outer_contains, outer_getitem, outer_setitem, inner_setitem.
  repeat first
    [ apply codec_blind_bind; [|intros ?]
    | apply codec_blind_read_outer | apply codec_blind_read_inner
    | apply codec_blind_ret | apply codec_blind_raise
    | match goal with |- codec_blind (if ?b then _ else _) => destruct b end
    | match goal with
      | |- codec_blind (match ?x with Some _ => _ | None => _ end) => destruct x
      end
    | done ].
Qed.

Lemma codec_blind_register_all r ops : codec_blind (register_all r ops).
Proof.
  apply codec_blind_for_each. intros [v o f|v o f]; apply codec_blind__add.
Qed.

Lemma codec_blind_init : codec_blind MessageCodecRegistry_init.
Proof. done. Qed.

Lemma register_all_set_codecs r ops σ σ' C :
  register_all r ops σ = Ret tt σ' →
  register_all r ops (set_codecs C σ) = Ret tt (set_codecs C σ').
Proof. intros Hrun. by rewrite codec_blind_register_all, Hrun. Qed.

Lemma register_all_codecs r ops σ σ' :
  register_all r ops σ = Ret tt σ' → codecs σ' = codecs σ.
Proof. apply codec_blind_codecs, codec_blind_register_all. Qed.

(** ** The content of a registry after a sequence of registrations *)

Lemma look_add2 t v o f v' o' :
  look (add2 t v o f) v' o' =
    if Z.eqb v v' && Z.eqb o o' then Some f else look t v' o'.
Proof.
  unfold look, add2. rewrite dict_get_set.
  destruct (Z.eqb_spec v v') as [->|Hv]; simpl; [|done].
  rewrite dict_get_set. destruct (Z.eqb_spec o o') as [->|Ho]; [done|].
  by destruct (dict_get t v').
Qed.

Lemma look_enc_steps ops t v o :
  look (fold_left (fun t op => enc_step op t) ops t) v o =
    match last_encoder ops v o with
    | Some f => Some f
    | None => look t v o
    end.
Proof.
  revert t. induction ops as [|op ops IH]; intros t; simpl; [done|].
  rewrite IH. destruct (last_encoder ops v o); [done|].
  destruct op as [v' o' f|v' o' f]; simpl; [|done].
  rewrite look_add2. by destruct (Z.eqb v' v && Z.eqb o' o).
Qed.

Lemma look_dec_steps ops t v o :
  look (fold_left (fun t op => dec_step op t) ops t) v o =
    match last_decoder ops v o with
    | Some f => Some f
    | None => look t v o
    end.
Proof.
  revert t. induction ops as [|op ops IH]; intros t; simpl; [done|].
  rewrite IH. destruct (last_decoder ops v o); [done|].
  destruct op as [v' o' f|v' o' f]; simpl; [done|].
  rewrite look_add2. by destruct (Z.eqb v' v && Z.eqb o' o).
Qed.

Lemma look_enc_model ops v o : look (enc_model ops) v o = last_encoder ops v o.
Proof. unfold enc_model. rewrite look_enc_steps. by destruct (last_encoder ops v o). Qed.

Lemma look_dec_model ops v o : look (dec_model ops) v o = last_decoder ops v o.
Proof. unfold dec_model. rewrite look_dec_steps. by destruct (last_decoder ops v o). Qed.

Lemma last_encoder_app a b v o :
  last_encoder (a ++ b) v o =
    match last_encoder b v o with
    | Some f => Some f
    | None => last_encoder a v o
    end.
Proof.
  induction a as [|op a IH]; simpl.
  - by destruct (last_encoder b v o).
  - rewrite IH. destruct (last_encoder b v o); [done|].
    by destruct (last_encoder a v o).
Qed.

Lemma last_decoder_app a b v o :
  last_decoder (a ++ b) v o =
    match last_decoder b v o with
    | Some f => Some f
    | None => last_decoder a v o
    end.
Proof.
  induction a as [|op a IH]; simpl.
  - by destruct (last_decoder b v o).
  - rewrite IH. destruct (last_decoder b v o); [done|].
    by destruct (last_decoder a v o).
Qed.

Lemma last_encoder_Some ops v o f :
  last_encoder ops v o = Some f → Encoder v o f ∈ ops.
Proof.
  induction ops as [|op ops IH]; simpl; [done|].
  destruct (last_encoder ops v o) as [g|].
  - intros [= ->]. right. by apply IH.
  - destruct op as [v' o' f'|]; [|done].
    destruct (Z.eqb_spec v' v) as [->|]; [|done].
    destruct (Z.eqb_spec o' o) as [->|]; [|done].
    intros [= ->]. left.
Qed.

Lemma last_encoder_None ops v o :
  last_encoder ops v o = None ↔ ∀ f, Encoder v o f ∉ ops.
Proof.
  induction ops as [|op ops IH]; simpl.
  - split; [|done]. intros _ f. apply not_elem_of_nil.
  - destruct (last_encoder ops v o) as [g|] eqn:E.
    + split; [done|]. intros H. destruct (H g). right.
      by apply last_encoder_Some.
    + destruct IH as [IH _]. specialize (IH eq_refl).
      destruct op as [v' o' f'|v' o' f'].
      * destruct (Z.eqb_spec v' v) as [->|]; simpl.
        -- destruct (Z.eqb_spec o' o) as [->|].
           ++ split; [done|]. intros H. destruct (H f'). left.
           ++ split; [|done]. intros _ f [?|?]%elem_of_cons; [congruence|].
              by eapply IH.
        -- split; [|done]. intros _ f [?|?]%elem_of_cons; [congruence|].
           by eapply IH.
      * split; [|done]. intros _ f [?|?]%elem_of_cons; [congruence|].
        by eapply IH.
Qed.

Lemma last_decoder_Some ops v o f :
  last_decoder ops v o = Some f → Decoder v o f ∈ ops.
Proof.
  induction ops as [|op ops IH]; simpl; [done|].
  destruct (last_decoder ops v o) as [g|].
  - intros [= ->]. right. by apply IH.
  - destruct op as [|v' o' f']; [done|].
    destruct (Z.eqb_spec v' v) as [->|]; [|done].
    destruct (Z.eqb_spec o' o) as [->|]; [|done].
    intros [= ->]. left.
Qed.

Lemma last_decoder_None ops v o :
  last_decoder ops v o = None ↔ ∀ f, Decoder v o f ∉ ops.
Proof.
  induction ops as [|op ops IH]; simpl.
  - split; [|done]. intros _ f. apply not_elem_of_nil.
  - destruct (last_decoder ops v o) as [g|] eqn:E.
    + split; [done|]. intros H. destruct (H g). right.
      by apply last_decoder_Some.
    + destruct IH as [IH _]. specialize (IH eq_refl).
      destruct op as [v' o' f'|v' o' f'].
      * split; [|done]. intros _ f [?|?]%elem_of_cons; [congruence|].
        by eapply IH.
      * destruct (Z.eqb_spec v' v) as [->|]; simpl.
        -- destruct (Z.eqb_spec o' o) as [->|].
           ++ split; [done|]. intros H. destruct (H f'). left.
           ++ split; [|done]. intros _ f [?|?]%elem_of_cons; [congruence|].
              by eapply IH.
        -- split; [|done]. intros _ f [?|?]%elem_of_cons; [congruence|].
           by eapply IH.
Qed.

Lemma registry_after_spec ops σ0 :
  ∃ r σ, registry_after ops σ0 = Ret r σ ∧ reg_inv σ r ∧
         resolve σ (encoders r) = Some (enc_model ops) ∧
         resolve σ (decoders r) = Some (dec_model ops).
Proof.
  destruct (MessageCodecRegistry_init_spec σ0)
    as (r & σ1 & Hinit & Hinv & He & Hd & _).
  destruct (register_all_steps σ1 r ops [] [] Hinv He Hd)
    as (σ & Hrun & Hinv' & He' & Hd').
  exists r, σ. split; [|done].
  unfold registry_after, bind, ret. by rewrite Hinit, Hrun.
Qed.

(** ** The default build as a sequence of registrations *)

Lemma bind_ext {A B} (m m' : M A) (k k' : A → M B) σ :
  m σ = m' σ → (∀ a σ', k a σ' = k' a σ') → bind m k σ = bind m' k' σ.
Proof. intros Hm Hk. unfold bind. rewrite Hm. by destruct (m' σ). Qed.

Lemma for_each_ext {A} (xs : list A) (f g : A → M unit) σ :
  (∀ x σ', f x σ' = g x σ') → for_each xs f σ = for_each xs g σ.
Proof.
  intros Hfg. revert σ. induction xs as [|x xs IH]; intros σ; simpl; [done|].
  apply bind_ext; [apply Hfg|]. intros _ σ'. apply IH.
Qed.

Lemma for_each_app {A} (xs ys : list A) (f : A → M unit) σ :
  for_each (xs ++ ys) f σ = (for_each xs f >> for_each ys f) σ.
Proof.
  revert σ. induction xs as [|x xs IH]; intros σ; simpl; [done|].
  unfold bind. destruct (f x σ) as [[] σ'| |]; [|done..].
  rewrite IH. done.
Qed.

Lemma for_each_fmap {A B} (g : A → B) (xs : list A) (f : B → M unit) σ :
  for_each (g <$> xs) f σ = for_each xs (fun x => f (g x)) σ.
Proof.
  revert σ. induction xs as [|x xs IH]; intros σ; simpl; [done|].
  apply bind_ext; [done|]. intros _ σ'. apply IH.
Qed.

Lemma for_each_bind {A B} (g : A → list B) (xs : list A) (f : B → M unit) σ :
  for_each (xs ≫= g) f σ = for_each xs (fun x => for_each (g x) f) σ.
Proof.
  revert σ. induction xs as [|x xs IH]; intros σ; simpl; [done|].
  rewrite for_each_app. apply bind_ext; [done|]. intros _ σ'. apply IH.
Qed.

Lemma for_each_map {A B} (g : A → B) (xs : list A) (f : B → M unit) σ :
  for_each (map g xs) f σ = for_each xs (fun x => f (g x)) σ.
Proof. apply for_each_fmap. Qed.

Lemma version_body P r v σ σ' :
  register_all r (version_block P v (fresh (codecs σ))) σ = Ret tt σ' →
  (for_each request_classes (fun message =>
     add_encoder r v (request_opcode P message) (encode message)) >>
   let* error_codec :=
     ErrorMessage_Codec_new P
       (map (fun e => (error_code P e, error_decode e)) error_classes) in
   for_each (map (class_codec P) response_classes ++ [error_codec])
     (fun codec =>
        add_decoder r v (codec_opcode_of codec) (codec_decode_of codec))) σ
  = Ret tt (set_codecs ({[ fresh (codecs σ) ]} ∪ codecs σ) σ').
Proof.
  unfold version_block, register_all. rewrite for_each_app.
  unfold version_encoders, version_decoders, bind.
  assert (for_each
            (map (fun m => Encoder v (request_opcode P m) (encode m))
               request_classes) (register r) σ
          = for_each request_classes (fun message =>
              add_encoder r v (request_opcode P message) (encode message)) σ)
    as -> by apply for_each_map.
  destruct (for_each request_classes _ σ) as [[] σa| |] eqn:Henc; [|done..].
  intros Hdec.
  assert (codecs σa = codecs σ) as Hc.
  { apply (codec_blind_codecs _ _ _ _
             (codec_blind_for_each request_classes _
                (fun m => codec_blind__add _ _ _ _)) Henc). }
  unfold ErrorMessage_Codec_new, bind, new_codec, ret. rewrite Hc.
  pose proof (register_all_set_codecs r _ σa σ'
                ({[ fresh (codecs σ) ]} ∪ codecs σ) Hdec) as Hdec'.
  unfold register_all in Hdec'. rewrite for_each_map in Hdec'.
  exact Hdec'.
Qed.

Lemma bind_Ret {A B} (m : M A) (k : A → M B) σ a σ' x :
  m σ = Ret a σ' → k a σ' = x → bind m k σ = x.
Proof. intros Hm Hk. unfold bind. by rewrite Hm. Qed.

Lemma build_registry_after P σ0 r σ i3 i4 i5 :
  build_codecs (codecs σ0) = (i3, i4, i5) →
  registry_after (default_registrations P i3 i4 i5) σ0 = Ret r σ →
  _build_message_codec_registry P σ0 =
    Ret r (set_codecs ({[ i5 ]} ∪ ({[ i4 ]} ∪ ({[ i3 ]} ∪ codecs σ0))) σ).
Proof.
  intros [= <- <- <-]. unfold registry_after, bind.
  destruct (MessageCodecRegistry_init σ0) as [r1 σ1| |] eqn:Hinit; [|done..].
  pose proof (codec_blind_codecs _ _ _ _ codec_blind_init Hinit) as Hc1.
  unfold register_all, default_registrations. rewrite for_each_app.
  unfold bind.
  destruct (for_each (version_block P V3 _) _ σ1) as [[] σ2| |] eqn:H3;
    [|done..].
  rewrite for_each_app. unfold bind.
  destruct (for_each (version_block P V4 _) _ σ2) as [[] σ3| |] eqn:H4;
    [|done..].
  destruct (for_each (version_block P V5 _) _ σ3) as [[] σ4| |] eqn:H5;
    [|done..].
  unfold ret. intros [= <- <-].
  rewrite <-Hc1 in H3, H4, H5 |- *. clear Hc1.
  unfold _build_message_codec_registry.
  eapply bind_Ret; [exact Hinit|].
  eapply bind_Ret; [|reflexivity].
  unfold protocol_versions. cbn [for_each].
  eapply bind_Ret; [apply version_body; exact H3|].
  eapply bind_Ret;
    [apply version_body; apply register_all_set_codecs; exact H4|].
  eapply bind_Ret;
    [apply version_body; do 2 apply register_all_set_codecs; exact H5|].
  reflexivity.
Qed.

Lemma build_codecs_fresh C i3 i4 i5 :
  build_codecs C = (i3, i4, i5) →
  (i3 ∉ C) ∧ (i4 ∉ C) ∧ (i5 ∉ C) ∧ i3 ≠ i4 ∧ i3 ≠ i5 ∧ i4 ≠ i5.
Proof.
  intros [= <- <- <-].
  pose proof (is_fresh C) as H3.
  pose proof (is_fresh ({[ fresh C ]} ∪ C)) as H4.
  pose proof (is_fresh ({[ fresh ({[ fresh C ]} ∪ C) ]} ∪ ({[ fresh C ]} ∪ C)))
    as H5.
  set_solver.
Qed.

(** ** [copy.deepcopy] *)

Lemma copied_erase C f g : copied C f g → erase_self g = erase_self f.
Proof. destruct f; simpl; try by intros ->. by intros (s & -> & _). Qed.

Lemma copied_class_bound C f g :
  copied C f g → codec_bound f = false → g = f.
Proof. by destruct f. Qed.

Lemma copied_mono C C' f g : C ⊆ C' → copied C' f g → copied C f g.
Proof.
  intros HC. destruct f; simpl; try done.
  intros (s & -> & Hs). exists s. split; [done|]. set_solver.
Qed.

Lemma copied_trans C C' f g h :
  C ⊆ C' → copied C f g → copied C' g h → copied C f h.
Proof.
  intros HC. destruct f; simpl; try (by intros ->).
  intros (s & -> & Hs). simpl. intros (s' & -> & Hs').
  exists s'. split; [done|]. set_solver.
Qed.

Lemma copied_entry_trans C C' x y z :
  C ⊆ C' → copied_entry C x y → copied_entry C' y z → copied_entry C x z.
Proof.
  intros HC. destruct x, y, z; simpl; try done. by apply copied_trans.
Qed.

Lemma copied_entry_base C x y : copied_entry C x y → entry_of_base C x y.
Proof.
  intros H. split; [done|]. destruct x as [f|], y as [g|]; simpl in *; try done.
  split.
  - f_equal. by eapply copied_erase.
  - intros f' [= <-] Hb. f_equal. by eapply copied_class_bound.
Qed.

Lemma copied_dict_mono C C' c c' :
  C ⊆ C' → copied_dict C' c c' → copied_dict C c c'.
Proof.
  intros HC H. eapply Forall2_impl; [exact H|].
  intros ?? [? ?]. split; [done|]. by eapply copied_mono.
Qed.

Lemma copied_maps_mono C C' t t' :
  C ⊆ C' → copied_maps C' t t' → copied_maps C t t'.
Proof.
  intros HC H. eapply Forall2_impl; [exact H|].
  intros ?? [? ?]. split; [done|]. by eapply copied_dict_mono.
Qed.

Lemma copied_dict_get C c c' o :
  copied_dict C c c' → copied_entry C (dict_get c o) (dict_get c' o).
Proof.
  induction 1 as [|[k f] [k' g] c c' [E H] _ IH]; simpl in *; [done|].
  subst k'. by destruct (Z.eqb k o).
Qed.

Lemma copied_maps_look C t t' v o :
  copied_maps C t t' → copied_entry C (look t v o) (look t' v o).
Proof.
  unfold look.
  induction 1 as [|[k c] [k' c'] t t' [E H] _ IH]; simpl in *; [done|].
  subst k'. destruct (Z.eqb k v); simpl; [|done]. by apply copied_dict_get.
Qed.

Lemma copied_maps_keys C t t' : copied_maps C t t' → dict_keys t' = dict_keys t.
Proof.
  unfold dict_keys.
  induction 1 as [|[k c] [k' c'] t t' [E _] _ IH]; [done|].
  rewrite !fmap_cons. simpl in *. congruence.
Qed.

Lemma deepcopy_value_spec C f mm σ :
  C ⊆ codecs σ → memo_codecs_ok C mm →
  ∃ g mm' σ', deepcopy_value f mm σ = Ret (g, mm') σ' ∧
    outers σ' = outers σ ∧ inners σ' = inners σ ∧ codecs σ ⊆ codecs σ' ∧
    memo_dicts mm' = memo_dicts mm ∧ memo_codecs_ok C mm' ∧ copied C f g.
Proof.
  intros HC Hmm.
  destruct f as [m|c|self tbl|c|n]; simpl;
    try (eexists _, _, _; split; [done|]; by split_and!).
  destruct (memo_codecs mm !! self) as [s'|] eqn:E.
  - eexists _, _, _. split; [done|]. split_and!; try done.
    exists s'. split; [done|]. by eapply Hmm.
  - unfold bind, new_codec, ret; simpl. eexists _, _, _. split; [done|]. simpl.
    assert (fresh (codecs σ) ∉ C) as Hf.
    { intros Hin. apply (is_fresh (codecs σ)). set_solver. }
    split_and!; try done.
    + set_solver.
    + intros s s' Hs. simpl in Hs.
      apply lookup_insert_Some in Hs as [[_ <-]|[_ H]]; [done|by eapply Hmm].
    + by eexists.
Qed.

Lemma deepcopy_values_spec C c :
  ∀ mm σ, C ⊆ codecs σ → memo_codecs_ok C mm →
  ∃ c' mm' σ', deepcopy_values c mm σ = Ret (c', mm') σ' ∧
    outers σ' = outers σ ∧ inners σ' = inners σ ∧ codecs σ ⊆ codecs σ' ∧
    memo_dicts mm' = memo_dicts mm ∧ memo_codecs_ok C mm' ∧
    copied_dict C c c'.
Proof.
  induction c as [|[k f] c IH]; intros mm σ HC Hmm; simpl.
  - eexists _, _, _. split; [done|]. split_and!; try done. constructor.
  - destruct (deepcopy_value_spec C f mm σ HC Hmm)
      as (g & mm1 & σ1 & Hrun1 & Ho1 & Hi1 & Hc1 & Hd1 & Hmm1 & Hcp).
    destruct (IH mm1 σ1)
      as (c' & mm2 & σ2 & Hrun2 & Ho2 & Hi2 & Hc2 & Hd2 & Hmm2 & Hcps);
      [set_solver|done|].
    exists ((k, g) :: c'), mm2, σ2. split_and!.
    + unfold bind, ret. rewrite Hrun1. simpl. by rewrite Hrun2.
    + congruence.
    + congruence.
    + set_solver.
    + congruence.
    + done.
    + by constructor.
Qed.

Lemma deepcopy_inner_spec σ0 σ mm x c :
  inners σ0 ⊆ inners σ → codecs σ0 ⊆ codecs σ → memo_ok σ0 σ mm →
  inners σ0 !! x = Some c →
  ∃ y mm' σ',
    deepcopy_inner x mm σ = Ret (y, mm') σ' ∧
    outers σ' = outers σ ∧ inners σ ⊆ inners σ' ∧ codecs σ ⊆ codecs σ' ∧
    memo_ok σ0 σ' mm' ∧
    inners σ0 !! y = None ∧
    ∃ c', inners σ' !! y = Some c' ∧ copied_dict (codecs σ0) c c'.
Proof.
  intros Hle Hcle [Hmemo Hmc] Hx. unfold deepcopy_inner.
  destruct (memo_dicts mm !! x) as [y|] eqn:Hmx.
  - destruct (Hmemo x y Hmx) as (Hy & c0 & c' & Hc0 & Hyc & Hcp).
    assert (c0 = c) as -> by congruence.
    exists y, mm, σ. split_and!; try done. by exists c'.
  - unfold bind, read_inner, new_inner; simpl.
    rewrite (lookup_weaken _ _ _ _ Hx Hle); simpl.
    set (y := fresh (dom (inners σ))).
    assert (inners σ !! y = None) as Hy.
    { apply not_elem_of_dom, is_fresh. }
    clearbody y.
    assert (inners σ0 !! y = None) as Hy0.
    { destruct (inners σ0 !! y) as [c0|] eqn:E; [|done].
      by rewrite (lookup_weaken _ _ _ _ E Hle) in Hy. }
    destruct (deepcopy_values_spec (codecs σ0) c
                (Memo (<[x:=y]> (memo_dicts mm)) (memo_codecs mm))
                (Heap (outers σ) (<[y:=[]]> (inners σ)) (codecs σ)))
      as (c' & mm' & σ' & Hrun & Ho & Hi & Hc & Hd & Hmm' & Hcp); [done..|].
    rewrite Hrun. unfold write_inner, ret. simpl in *.
    eexists _, _, _. split; [done|]. simpl.
    rewrite Hi, insert_insert_eq. split_and!.
    + done.
    + by apply insert_subseteq.
    + done.
    + split; [|done]. rewrite Hd. simpl.
      intros x' y' [[-> ->]|[Hne Hm']]%lookup_insert_Some.
      * split; [done|]. exists c, c'. simpl. by rewrite lookup_insert_eq.
      * destruct (Hmemo x' y' Hm') as (Hy' & c1 & c1' & Hc1 & Hyc1 & Hcp1).
        split; [done|]. exists c1, c1'. split_and!; [done| |done]. simpl.
        rewrite lookup_insert_ne; [done|]. intros ->. congruence.
    + done.
    + exists c'. by rewrite lookup_insert_eq.
Qed.

Lemma deepcopy_items_spec σ0 (items : dict loc) (t : dict (dict func)) :
  Forall2 (entry_of σ0) items t →
  ∀ mm σ, inners σ0 ⊆ inners σ → codecs σ0 ⊆ codecs σ → memo_ok σ0 σ mm →
  ∃ items' t' σ',
    deepcopy_items items mm σ = Ret items' σ' ∧
    outers σ' = outers σ ∧ inners σ ⊆ inners σ' ∧ codecs σ ⊆ codecs σ' ∧
    Forall2 (entry_of σ') items' t' ∧
    copied_maps (codecs σ0) t t' ∧
    (∀ i, i ∈ items'.*2 → inners σ0 !! i = None).
Proof.
  induction 1 as [|[k x] [k' c] items t [E1 E2] _ IH];
    intros mm σ Hle Hcle Hmemo; simpl in *.
  - exists [], [], σ. split_and!; try done; [constructor|].
    intros i ?%elem_of_nil. done.
  - subst k'.
    destruct (deepcopy_inner_spec σ0 σ mm x c Hle Hcle Hmemo E2)
      as (y & mm1 & σ1 & Hrun1 & Ho1 & Hle1 & Hcle1 & Hmemo1 & Hy0 & c' & Hy1 & Hcp).
    destruct (IH mm1 σ1)
      as (items' & t' & σ' & Hrun & Ho & Hle' & Hcle' & Hent & Hcps & Hfresh).
    { by etrans. } { by etrans. } { done. }
    exists ((k, y) :: items'), ((k, c') :: t'), σ'. split_and!.
    + unfold bind, ret. rewrite Hrun1; simpl. by rewrite Hrun.
    + congruence.
    + by etrans.
    + by etrans.
    + constructor; [|done]. split; simpl; [done|].
      by eapply lookup_weaken.
    + by constructor.
    + simpl. intros i [->|Hi]%elem_of_cons; [done|]. by apply Hfresh.
Qed.

Lemma deepcopy_spec σ x t :
  resolve σ x = Some t →
  ∃ y σ' t', deepcopy x σ = Ret y σ' ∧
          outers σ !! y = None ∧
          resolve σ' y = Some t' ∧
          copied_maps (codecs σ) t t' ∧
          (∀ i, i ∈ refs σ' y → inners σ !! i = None) ∧
          heap_le σ σ'.
Proof.
  intros (m & Hm & Hmt)%resolve_Some.
  unfold deepcopy, bind, read_outer, new_outer, write_outer, ret. rewrite Hm.
  set (y := fresh (dom (outers σ))).
  assert (outers σ !! y = None) as Hy by apply not_elem_of_dom, is_fresh.
  clearbody y.
  set (σ1 := Heap (<[y:=[]]> (outers σ)) (inners σ) (codecs σ)).
  destruct (deepcopy_items_spec σ1 m t) with (mm := Memo ∅ ∅) (σ := σ1)
    as (m' & t' & σ2 & Hrun & Ho & Hle & Hcle & Hent & Hcps & Hfresh).
  { by eapply entries_frame. } { done. } { done. }
  { split; intros ?? H; simpl in H; by apply lookup_empty_Some in H. }
  rewrite Hrun. simpl in *. rewrite Ho, insert_insert_eq.
  eexists _, _, t'. split; [done|]. split_and!.
  - done.
  - apply resolve_Some. exists m'. simpl. rewrite lookup_insert_eq.
    split; [done|]. by eapply entries_frame.
  - done.
  - unfold refs; simpl. by rewrite lookup_insert_eq.
  - split_and!; simpl; [|done..]. by apply insert_subseteq.
Qed.

(** ** Protocol handlers *)

Lemma _ProtocolHandler_init_spec σ e d te td :
  resolve σ e = Some te → resolve σ d = Some td →
  ∃ h σ' te' td', _ProtocolHandler_init e d σ = Ret h σ' ∧
          heap_le σ σ' ∧
          resolve σ' (handler_encoders h) = Some te' ∧
          resolve σ' (handler_decoders h) = Some td' ∧
          copied_maps (codecs σ) te te' ∧
          copied_maps (codecs σ) td td' ∧
          outers σ !! handler_encoders h = None ∧
          outers σ !! handler_decoders h = None ∧
          (∀ i, i ∈ refs σ' (handler_encoders h) → inners σ !! i = None) ∧
          (∀ i, i ∈ refs σ' (handler_decoders h) → inners σ !! i = None).
Proof.
  intros He Hd.
  destruct (deepcopy_spec σ e te He)
    as (e' & σ1 & te' & Hrun1 & He' & Hres1 & Hcp1 & Hfr1 & Hle1).
  pose proof (resolve_le _ _ _ _ Hle1 Hd) as Hd1.
  destruct (deepcopy_spec σ1 d td Hd1)
    as (d' & σ2 & td' & Hrun2 & Hd' & Hres2 & Hcp2 & Hfr2 & Hle2).
  exists (Handler e' d'), σ2, te', td'.
  assert (is_Some (outers σ1 !! e')) as Hsome.
  { apply resolve_Some in Hres1 as (? & ? & _). eauto. }
  unfold _ProtocolHandler_init, bind, ret. rewrite Hrun1, Hrun2. simpl.
  split_and!; try done.
  - by etrans.
  - by eapply resolve_le.
  - eapply copied_maps_mono; [|exact Hcp2]. apply Hle1.
  - destruct (outers σ !! d') as [m|] eqn:E; [|done].
    destruct Hle1 as [Ho _]. by rewrite (lookup_weaken _ _ _ _ E Ho) in Hd'.
  - intros i. rewrite (refs_le σ1 σ2) by done. apply Hfr1.
  - intros i Hi. specialize (Hfr2 i Hi).
    destruct (inners σ !! i) as [c|] eqn:E; [|done].
    destruct Hle1 as (_ & Hi1 & _). by rewrite (lookup_weaken _ _ _ _ E Hi1) in Hfr2.
Qed.

Section patch.
Variables (op : Z) (f : func).

Lemma entry_patched_elem σ (m : list (Z * nat)) (t : list (Z * list (Z * func))) k i :
  Forall2 (entry_patched op σ) m t → (k, i) ∈ m → is_Some (inners σ !! i).
Proof.
  intros Hall Hin. apply list_elem_of_lookup_1 in Hin as [n Hn].
  destruct (Forall2_lookup_l _ _ _ _ _ Hall Hn) as (kc & _ & _ & c' & Hc' & _).
  eauto.
Qed.

Lemma patch_step σ d (m : list (Z * nat)) (t : list (Z * list (Z * func))) k :
  outers σ !! d = Some m → Forall2 (entry_patched op σ) m t →
  k ∈ dict_keys m →
  ∃ i c, dict_get m k = Some i ∧ inners σ !! i = Some c ∧
    patch_body op f d k σ =
      Ret tt (Heap (outers σ) (<[i := dict_set c op f]> (inners σ)) (codecs σ)).
Proof.
  intros Hm Hall [i Hi]%dict_get_is_Some.
  destruct (entry_patched_elem σ m t k i Hall) as [c Hc].
  { by apply dict_get_elem_of. }
  exists i, c. split_and!; [done..|].
  unfold patch_body, bind, outer_getitem, inner_setitem, read_outer,
    read_inner, write_inner, bind, ret.
  by rewrite Hm, Hi; simpl; rewrite Hc.
Qed.

Lemma patch_loop d (m : list (Z * nat)) (t : list (Z * list (Z * func))) ks :
  ∀ σ, outers σ !! d = Some m → Forall2 (entry_patched op σ) m t →
    (∀ k, k ∈ ks → k ∈ dict_keys m) →
    ∃ σ', for_each ks (patch_body op f d) σ = Ret tt σ' ∧
          outers σ' = outers σ ∧ codecs σ' = codecs σ ∧
          (∀ i, i ∉ m.*2 → inners σ' !! i = inners σ !! i) ∧
          Forall2 (entry_patched op σ') m t ∧
          (∀ k, patch_done op f σ m k → patch_done op f σ' m k) ∧
          (∀ k, k ∈ ks → patch_done op f σ' m k).
Proof.
  induction ks as [|k ks IH]; intros σ Hm Hall Hks.
  - exists σ. split_and!; try done. intros k ?%elem_of_nil. done.
  - destruct (patch_step σ d m t k Hm Hall) as (i & c & Hi & Hc & Hrun).
    { apply Hks. left. }
    set (σ1 := Heap (outers σ) (<[i := dict_set c op f]> (inners σ))
                 (codecs σ)) in *.
    assert (Forall2 (entry_patched op σ1) m t) as Hall1.
    { eapply Forall2_impl; [exact Hall|].
      intros [k1 j] [k2 c2] (E1 & c' & Hc' & Hsame); simpl in *.
      split; [done|]. simpl. destruct (decide (i = j)) as [->|Hne].
      - exists (dict_set c op f). rewrite lookup_insert_eq. split; [done|].
        intros o Ho. rewrite dict_get_set_ne by done.
        assert (c' = c) as -> by congruence. by apply Hsame.
      - exists c'. by rewrite lookup_insert_ne. }
    assert (∀ k', patch_done op f σ m k' → patch_done op f σ1 m k') as Hkeep.
    { intros k' (j & c' & Hj & Hc' & Hop). destruct (decide (i = j)) as [->|Hne].
      - exists j, (dict_set c op f). simpl. rewrite lookup_insert_eq.
        split_and!; [done..|]. apply dict_get_set_eq.
      - exists j, c'. simpl. by rewrite lookup_insert_ne. }
    destruct (IH σ1) as (σ' & Hrun' & Ho & Hco & Hin & Hall' & Hkeep' & Hdone).
    { done. } { done. } { intros k' Hk'. apply Hks. by right. }
    exists σ'. split_and!.
    + simpl. unfold bind. by rewrite Hrun.
    + done.
    + done.
    + intros j Hj. rewrite Hin by done. simpl.
      rewrite lookup_insert_ne; [done|]. intros ->. apply Hj.
      apply list_elem_of_fmap. exists (k, j). split; [done|].
      by apply dict_get_elem_of.
    + done.
    + intros k' Hk'. by apply Hkeep', Hkeep.
    + intros k' [->|Hk']%elem_of_cons; [|by apply Hdone].
      apply Hkeep'. exists i, (dict_set c op f). simpl.
      rewrite lookup_insert_eq. split_and!; [done..|]. apply dict_get_set_eq.
Qed.

Lemma entry_patched_resolve σ (m : list (Z * nat)) (t : list (Z * list (Z * func))) :
  Forall2 (entry_patched op σ) m t →
  ∃ t', Forall2 (entry_of σ) m t' ∧ Forall2 (patched op) t t'.
Proof.
  induction 1 as [|[k i] [k' c] m t (E & c' & Hc' & Hsame) _ (t' & H1 & H2)];
    simpl in *.
  - exists []. split; constructor.
  - subst k'. exists ((k, c') :: t'). split; constructor; try done.
Qed.

Lemma patched_look (t t' : list (Z * list (Z * func))) v o :
  Forall2 (patched op) t t' → o ≠ op → look t' v o = look t v o.
Proof.
  intros Hall Ho. unfold look.
  induction Hall as [|[k c] [k' c'] t t' [E Hsame] _ IH]; simpl in *; [done|].
  subst k'. destruct (Z.eqb_spec k v); simpl; [by apply Hsame|done].
Qed.

Lemma patched_keys (t t' : list (Z * list (Z * func))) :
  Forall2 (patched op) t t' → dict_keys t' = dict_keys t.
Proof.
  unfold dict_keys.
  induction 1 as [|[k c] [k' c'] t t' [E _] _ IH]; [done|].
  rewrite !fmap_cons. simpl in *. congruence.
Qed.
End patch.

Lemma entries_keys σ (m : dict loc) (t : dict (dict func)) :
  Forall2 (entry_of σ) m t → dict_keys m = dict_keys t.
Proof.
  unfold dict_keys. induction 1 as [|[k i] [k' c] m t [E _] _ IH]; [done|].
  rewrite !fmap_cons. simpl in *. congruence.
Qed.

Lemma custom_handler_init_spec P c σ e d te td :
  resolve σ e = Some te → resolve σ d = Some td →
  ∃ h σ' te' td',
    custom_handler_init P c e d σ = Ret h σ' ∧
    heap_le σ σ' ∧
    resolve σ' (handler_encoders h) = Some te' ∧
    resolve σ' (handler_decoders h) = Some td' ∧
    copied_maps (codecs σ) te te' ∧
    dict_keys td' = dict_keys td ∧
    (∀ v o, o ≠ result_message_opcode P →
          copied_entry (codecs σ) (look td v o) (look td' v o)) ∧
    (∀ v, v ∈ dict_keys td →
          look td' v (result_message_opcode P) = Some (custom_decode c)) ∧
    outers σ !! handler_encoders h = None ∧
    outers σ !! handler_decoders h = None.
Proof.
  intros He Hd.
  destruct (deepcopy_spec σ d td Hd)
    as (y & σ1 & td1 & Hrun1 & Hy & Hres1 & Hcp1 & Hfr1 & Hle1).
  pose proof Hres1 as (m & Hm & Hmt)%resolve_Some.
  assert (Forall2 (entry_patched (result_message_opcode P) σ1) m td1) as Hpat.
  { eapply Forall2_impl; [exact Hmt|]. intros kv kc [E1 E2].
    split; [done|]. by exists kc.2. }
  destruct (patch_loop (result_message_opcode P) (custom_decode c) y m td1
              (dict_keys m) σ1 Hm Hpat)
    as (σ2 & Hrun2 & Ho2 & Hco2 & Hin2 & Hpat2 & _ & Hdone); [done|].
  destruct (entry_patched_resolve _ _ _ _ Hpat2) as (td2 & Hmt' & Hrel).
  assert (resolve σ2 y = Some td2) as Hres2.
  { apply resolve_Some. exists m. by rewrite Ho2. }
  assert (heap_le σ σ2) as Hle2.
  { destruct Hle1 as (Hlo & Hli & Hlc). split_and!; [by rewrite Ho2| |by rewrite Hco2].
    apply map_subseteq_spec. intros i ci Hi. rewrite Hin2.
    - by eapply lookup_weaken.
    - intros Hmem. rewrite Hfr1 in Hi; [done|]. unfold refs. by rewrite Hm. }
  pose proof (resolve_le _ _ _ _ Hle2 He) as He2.
  destruct (_ProtocolHandler_init_spec σ2 e y te td2 He2 Hres2)
    as (h & σ3 & te' & td' & Hrun3 & Hle3 & Hhe & Hhd & Hcpe & Hcpd & Hfe & Hfd & _).
  assert (∀ l, outers σ2 !! l = None → outers σ !! l = None) as Hnone.
  { intros l Hl. destruct (outers σ !! l) as [x|] eqn:E; [|done].
    destruct Hle2 as [Hlo _]. by rewrite (lookup_weaken _ _ _ _ E Hlo) in Hl. }
  assert (codecs σ ⊆ codecs σ2) as Hsub by apply Hle2.
  exists h, σ3, te', td'. split_and!; try done; try (by apply Hnone).
  - unfold custom_handler_init, bind, read_outer, ret.
    rewrite Hrun1, Hm.
    change (for_each (dict_keys m) _ σ1)
      with (for_each (dict_keys m)
              (patch_body (result_message_opcode P) (custom_decode c) y) σ1).
    by rewrite Hrun2.
  - by etrans.
  - by eapply copied_maps_mono.
  - rewrite (copied_maps_keys _ _ _ Hcpd), (patched_keys _ _ _ Hrel).
    by eapply copied_maps_keys.
  - intros v o Ho.
    eapply copied_entry_trans; [exact Hsub| |by apply copied_maps_look].
    rewrite (patched_look _ _ _ v o Hrel Ho). by apply copied_maps_look.
  - intros v Hv. rewrite <-(copied_maps_keys _ _ _ Hcp1) in Hv.
    rewrite <-(entries_keys _ _ _ Hmt) in Hv.
    destruct (Hdone v Hv) as (i & c' & Hi & Hc' & Hop).
    destruct (entries_get_Some _ _ _ _ _ Hmt' Hi) as (c'' & Hget & Hc'').
    assert (look td2 v (result_message_opcode P) = Some (custom_decode c)) as Hl.
    { unfold look. rewrite Hget; simpl. congruence. }
    pose proof (copied_maps_look _ _ _ v (result_message_opcode P) Hcpd) as H.
    rewrite Hl in H. simpl in H.
    destruct (look td' v (result_message_opcode P)); [by subst|done].
Qed.

(** ** The message of the exception raised by [_get] *)

Lemma read_upper_hex_upper_hex u : read_upper_hex (upper_hex u) = Some u.
Proof. induction u; simpl; [done|by rewrite IHu..]. Qed.

Lemma upper_hex_head u a s :
  upper_hex u = String a s → Ascii.eqb a "-" = false.
Proof. destruct u; simpl; intros [= <- _]; done. Qed.

Lemma read_02X_format_02X n : read_02X (format_02X n) = Some n.
Proof.
  destruct n as [|p|p]; simpl; [done| |].
  - pose proof (HexadecimalPos.Unsigned.of_to p) as Hp.
    pose proof (read_upper_hex_upper_hex (Pos.to_hex_uint p)) as Hr.
    destruct (Nat.ltb _ 2).
    + unfold read_02X. change (Ascii.eqb "0" "-") with false. cbv iota.
      change (read_upper_hex (String "0" ?s))
        with (match read_upper_hex s with
              | Some u => Some (Hexadecimal.D0 u) | None => None end).
      rewrite Hr. simpl. by rewrite Hp.
    + destruct (upper_hex (Pos.to_hex_uint p)) as [|a s] eqn:E.
      * destruct (Pos.to_hex_uint p); done.
      * unfold read_02X. rewrite (upper_hex_head _ _ _ E), Hr. simpl.
        by rewrite Hp.
  - rewrite read_upper_hex_upper_hex. simpl.
    by rewrite (HexadecimalPos.Unsigned.of_to p).
Qed.

Lemma read_str_str n : read_str (str n) = Some n.
Proof.
  unfold read_str, str. rewrite NilZero.isi.
  - simpl. by rewrite DecimalZ.of_to.
  - destruct n; simpl; try done.
    intros [= H]. by eapply DecimalPos.Unsigned.to_uint_nonnil.
  - destruct n; simpl; try done.
    intros [= H]. by eapply DecimalPos.Unsigned.to_uint_nonnil.
Qed.

Lemma quote_free_upper_hex u : quote_free (upper_hex u) = true.
Proof. induction u; simpl; done. Qed.

Lemma quote_free_format_02X n : quote_free (format_02X n) = true.
Proof.
  destruct n; simpl; [done| |apply quote_free_upper_hex].
  destruct (Nat.ltb _ 2); simpl; apply quote_free_upper_hex.
Qed.

Lemma quote_free_string_of_uint d :
  quote_free (NilEmpty.string_of_uint d) = true.
Proof. induction d; simpl; done. Qed.

Lemma quote_free_str n : quote_free (str n) = true.
Proof.
  assert (∀ d, quote_free (NilZero.string_of_uint d) = true) as H.
  { intros d. destruct d; try done; apply (quote_free_string_of_uint (_ _)). }
  unfold str. destruct n; simpl; try done; apply H.
Qed.

Lemma split_quote_app s r :
  quote_free s = true → split_quote (s +:+ String "'" r) = Some (s, r).
Proof.
  induction s as [|a s IH]; simpl; [done|].
  destruct (Ascii.eqb a "'"); simpl; [done|]. intros H. by rewrite IH.
Qed.

Lemma strip_prefix_app p s : strip_prefix p (p +:+ s) = Some s.
Proof.
  induction p as [|a p IH]; simpl; [by destruct s|].
  by rewrite Ascii.eqb_refl.
Qed.

Lemma read_codec_error_message o v :
  read_codec_error (codec_error_message o v) = Some (o, v).
Proof.
  unfold read_codec_error, codec_error_message.
  rewrite strip_prefix_app.
  change ("' and protocol version '" +:+ ?x)
    with (String "'" (" and protocol version '" +:+ x)).
  rewrite split_quote_app by apply quote_free_format_02X.
  rewrite strip_prefix_app.
  rewrite split_quote_app by apply quote_free_str.
  by rewrite read_02X_format_02X, read_str_str.
Qed.

(** ** The content of the default registry *)

Lemma default_enc_model P i3 i4 i5 :
  enc_model (default_registrations P i3 i4 i5) = default_encoders P.
Proof. reflexivity. Qed.

Lemma default_dec_model P i3 i4 i5 :
  dec_model (default_registrations P i3 i4 i5) = default_decoders P i3 i4 i5.
Proof. reflexivity. Qed.

(** ** Maps that a registry does not own are left alone *)

Lemma register_apart σ σ' r op hd t :
  reg_inv σ r → register r op σ = Ret tt σ' →
  apart σ (encoders r) hd → apart σ (decoders r) hd → resolve σ hd = Some t →
  reg_inv σ' r ∧ apart σ' (encoders r) hd ∧ apart σ' (decoders r) hd ∧
  resolve σ' hd = Some t.
Proof.
  intros Hinv Hrun Hae Had Hres.
  pose proof Hinv as (_ & [te He] & [td Hd] & _).
  destruct (register_step σ r op te td Hinv He Hd)
    as (σ1 & Hrun1 & Hinv1 & _ & _ & Hfr).
  assert (σ1 = σ') as -> by congruence.
  split; [done|].
  destruct Hfr as [[Hfr Hsame]|[Hfr Hsame]].
  - destruct (add_frame_apart _ _ _ _ _ Hfr Hae Hres) as (Hres' & Hrefs & Hae').
    split_and!; [done| |done]. destruct Had as [Hne Hdis].
    split; [done|]. intros i. rewrite Hrefs, Hsame. apply Hdis.
  - destruct (add_frame_apart _ _ _ _ _ Hfr Had Hres) as (Hres' & Hrefs & Had').
    split_and!; [|done|done]. destruct Hae as [Hne Hdis].
    split; [done|]. intros i. rewrite Hrefs, Hsame. apply Hdis.
Qed.

Lemma register_all_apart ops σ σ' r hd t :
  reg_inv σ r → register_all r ops σ = Ret tt σ' →
  apart σ (encoders r) hd → apart σ (decoders r) hd → resolve σ hd = Some t →
  resolve σ' hd = Some t.
Proof.
  revert σ. induction ops as [|op ops IH]; intros σ Hinv Hrun Hae Had Hres.
  - unfold register_all in Hrun. simpl in Hrun. unfold ret in Hrun. congruence.
  - pose proof Hinv as (_ & [te He] & [td Hd] & _).
    destruct (register_step σ r op te td Hinv He Hd) as (σ1 & Hrun1 & _).
    unfold register_all in Hrun. simpl in Hrun. unfold bind in Hrun.
    rewrite Hrun1 in Hrun.
    destruct (register_apart σ σ1 r op hd t) as (Hinv1 & Hae1 & Had1 & Hres1);
      try done.
    by eapply IH.
Qed.

Lemma apart_sym_fresh σ σ0 d hd t :
  heap_le σ0 σ → resolve σ0 d = Some t →
  outers σ0 !! hd = None → (∀ i, i ∈ refs σ hd → inners σ0 !! i = None) →
  apart σ d hd.
Proof.
  intros Hle Hres Hhd Hfresh. split.
  - intros ->. apply resolve_Some in Hres as (m & Hm & _). congruence.
  - intros i Hi Hi'. rewrite (refs_le σ0 σ) in Hi'; [|done|].
    + destruct (resolve_refs_alloc _ _ _ _ Hres Hi') as [c Hc].
      rewrite Hfresh in Hc; done.
    + apply resolve_Some in Hres as (m & Hm & _). eauto.
Qed.

Lemma reg_inv_le σ σ' r : heap_le σ σ' → reg_inv σ r → reg_inv σ' r.
Proof.
  intros Hle (Hne & [te He] & [td Hd] & Hnd).
  split_and!; [done|..].
  - exists te. by eapply resolve_le.
  - exists td. by eapply resolve_le.
  - rewrite !(refs_le σ σ'); try done.
    + apply resolve_Some in Hd as (m & Hm & _). eauto.
    + apply resolve_Some in He as (m & Hm & _). eauto.
Qed.

(** A registry built in a store leaves the maps of that store alone. *)
Lemma registry_after_frame ops σ0 r σ hd t :
  registry_after ops σ0 = Ret r σ → resolve σ0 hd = Some t →
  resolve σ hd = Some t ∧ hd ≠ encoders r ∧ hd ≠ decoders r.
Proof.
  intros Hrun Hres.
  destruct (MessageCodecRegistry_init_spec σ0)
    as (r1 & σ1 & Hinit & Hinv & He & Hd & Hfe & Hfd & Hle).
  unfold registry_after, bind in Hrun. rewrite Hinit in Hrun.
  destruct (register_all r1 ops σ1) as [[] σ2| |] eqn:Hall; try done.
  unfold ret in Hrun. injection Hrun as <- <-.
  pose proof (resolve_le _ _ _ _ Hle Hres) as Hres1.
  assert (is_Some (outers σ0 !! hd)) as Hhd.
  { apply resolve_Some in Hres as (m & Hm & _). eauto. }
  assert (hd ≠ encoders r1 ∧ hd ≠ decoders r1) as [Hne1 Hne2].
  { split; intros ->; [apply Hfe|apply Hfd]; by apply elem_of_dom. }
  split_and!; [|done..].
  eapply (register_all_apart ops σ1 σ2 r1 hd t); try done.
  - split; [done|]. intros i _. unfold refs.
    apply resolve_Some in He as (m & -> & ->%Forall2_nil_inv_r). simpl.
    apply not_elem_of_nil.
  - split; [done|]. intros i _. unfold refs.
    apply resolve_Some in Hd as (m & -> & ->%Forall2_nil_inv_r). simpl.
    apply not_elem_of_nil.
Qed.

Lemma build_spec P σ0 :
  ∃ r σ i3 i4 i5, _build_message_codec_registry P σ0 = Ret r σ ∧ reg_inv σ r ∧
    resolve σ (encoders r) = Some (default_encoders P) ∧
    resolve σ (decoders r) = Some (default_decoders P i3 i4 i5) ∧
    build_codecs (codecs σ0) = (i3, i4, i5) ∧
    codecs σ = {[ i5 ]} ∪ ({[ i4 ]} ∪ ({[ i3 ]} ∪ codecs σ0)) ∧
    ∃ σ', registry_after (default_registrations P i3 i4 i5) σ0 = Ret r σ' ∧
          σ = set_codecs (codecs σ) σ'.
Proof.
  destruct (build_codecs (codecs σ0)) as [[i3 i4] i5] eqn:Hids.
  destruct (registry_after_spec (default_registrations P i3 i4 i5) σ0)
    as (r & σ & Hrun & Hinv & He & Hd).
  exists r, (set_codecs ({[ i5 ]} ∪ ({[ i4 ]} ∪ ({[ i3 ]} ∪ codecs σ0))) σ),
    i3, i4, i5.
  split_and!; try done.
  - by apply build_registry_after.
  - by exists σ.
Qed.

(** * The properties of the specification *)

(** C1. On a registry that was created by its constructor and then received
    any sequence of [add_encoder] and [add_decoder] calls, no call raises,
    including the calls that register again an occupied (version, opcode)
    pair, and [get_encoder] (resp. [get_decoder]) for a pair returns exactly
    the function passed to the most recent [add_encoder] (resp.
    [add_decoder]) call for that pair. *)
Theorem get_returns_most_recent_registration (ops : list registration) (σ0 : heap) :
  ∃ r σ, registry_after ops σ0 = Ret r σ ∧
    (∀ v o f, last_encoder ops v o = Some f → get_encoder r v o σ = Ret f σ) ∧
    (∀ v o f, last_decoder ops v o = Some f → get_decoder r v o σ = Ret f σ) ∧
    (∀ v o f, last_encoder (ops ++ [Encoder v o f]) v o = Some f) ∧
    (∀ v o f, last_decoder (ops ++ [Decoder v o f]) v o = Some f).
Proof.
  destruct (registry_after_spec ops σ0) as (r & σ & Hrun & _ & He & Hd).
  exists r, σ. split_and!; [done|..].
  - intros v o f Hlast. unfold get_encoder.
    by rewrite (_get_resolve _ _ _ _ _ He), look_enc_model, Hlast.
  - intros v o f Hlast. unfold get_decoder.
    by rewrite (_get_resolve _ _ _ _ _ Hd), look_dec_model, Hlast.
  - intros v o f. rewrite last_encoder_app. simpl. by rewrite !Z.eqb_refl.
  - intros v o f. rewrite last_decoder_app. simpl. by rewrite !Z.eqb_refl.
Qed.

(** The scenario of the specification: E registered for (V4, 0x07), after
    another encoder had been registered for the same pair. *)
Example last_registration_wins_V4_07 :
  (let* r := MessageCodecRegistry_init in
   add_encoder r V4 7 (callable 0) >>
   add_encoder r V4 7 (encode QueryMessage) >>
   get_encoder r V4 7) empty_heap
  = Ret (encode QueryMessage)
      (Heap {[ 0%nat := [(4, 0%nat)]; 1%nat := [] ]}
            {[ 0%nat := [(7, encode QueryMessage)] ]} ∅).
Proof. vm_compute. reflexivity. Qed.

(** C2. For every (version, opcode) pair for which no registration was made,
    whether the version is absent from the map or only the opcode is absent
    under that version, [get_encoder] and [get_decoder] raise: not the
    [KeyError] of the failed dictionary access and not a null result, but a
    [ValueError] whose message carries the opcode and the protocol version,
    both of which can be read back from it. *)
Theorem get_unregistered_raises_codec_not_found
    (ops : list registration) (σ0 : heap) (v : ProtocolVersion) (o : Opcode) :
  ∃ r σ, registry_after ops σ0 = Ret r σ ∧
    ((∀ f, Encoder v o f ∉ ops) →
     get_encoder r v o σ = Raise (ValueError (codec_error_message o v)) σ) ∧
    ((∀ f, Decoder v o f ∉ ops) →
     get_decoder r v o σ = Raise (ValueError (codec_error_message o v)) σ) ∧
    read_codec_error (codec_error_message o v) = Some (o, v).
Proof.
  destruct (registry_after_spec ops σ0) as (r & σ & Hrun & _ & He & Hd).
  exists r, σ. split_and!; [done|..].
  - intros Hno%last_encoder_None. unfold get_encoder.
    by rewrite (_get_resolve _ _ _ _ _ He), look_enc_model, Hno.
  - intros Hno%last_decoder_None. unfold get_decoder.
    by rewrite (_get_resolve _ _ _ _ _ Hd), look_dec_model, Hno.
  - apply read_codec_error_message.
Qed.

(** The scenario of the specification: an encoder is registered for
    (V4, 0x07) and none for (V3, 0x07); the version is absent from the map.
    For (V4, 0x08) only the opcode is absent. *)
Lemma get_unregistered_raises_codec_not_found_witness :
  ∃ r σ, registry_after [Encoder V4 7 (encode QueryMessage)] empty_heap = Ret r σ ∧
    get_encoder r V3 7 σ =
      Raise (ValueError
        "No codec registered for message '07' and protocol version '3'") σ ∧
    get_encoder r V4 8 σ =
      Raise (ValueError
        "No codec registered for message '08' and protocol version '4'") σ ∧
    get_decoder r V4 7 σ =
      Raise (ValueError
        "No codec registered for message '07' and protocol version '4'") σ.
Proof.
  destruct (get_unregistered_raises_codec_not_found
              [Encoder V4 7 (encode QueryMessage)] empty_heap V3 7)
    as (r & σ & Hrun & He & _).
  exists r, σ. split; [exact Hrun|]. split.
  - apply He. intros f Hin. apply list_elem_of_singleton in Hin. discriminate Hin.
  - vm_compute in Hrun. injection Hrun as <- <-. split; vm_compute; reflexivity.
Defined.

(** C10. On a registry whose two maps are distinct objects sharing no inner
    dictionary (what the constructor establishes and every [add] keeps),
    [add_encoder v o f] returns normally, makes the entry of the encoders at
    [(v, o)] be [f], creating the inner map of [v] when it is absent, and
    leaves every other encoder entry and the whole decoders mapping
    unchanged; symmetrically for [add_decoder]. *)
Theorem add_modifies_single_entry
    (σ : heap) (r : MessageCodecRegistry) (v : ProtocolVersion) (o : Opcode)
    (f : func) :
  reg_inv σ r →
  (∃ σ', add_encoder r v o f σ = Ret tt σ' ∧ reg_inv σ' r ∧
     resolve σ' (encoders r) =
       (fun t => add2 t v o f) <$> resolve σ (encoders r) ∧
     lookup2 σ' (encoders r) v o = Some f ∧
     (∀ v' o', (v', o') ≠ (v, o) →
        lookup2 σ' (encoders r) v' o' = lookup2 σ (encoders r) v' o') ∧
     resolve σ' (decoders r) = resolve σ (decoders r) ∧
     outers σ' !! decoders r = outers σ !! decoders r) ∧
  (∃ σ', add_decoder r v o f σ = Ret tt σ' ∧ reg_inv σ' r ∧
     resolve σ' (decoders r) =
       (fun t => add2 t v o f) <$> resolve σ (decoders r) ∧
     lookup2 σ' (decoders r) v o = Some f ∧
     (∀ v' o', (v', o') ≠ (v, o) →
        lookup2 σ' (decoders r) v' o' = lookup2 σ (decoders r) v' o') ∧
     resolve σ' (encoders r) = resolve σ (encoders r) ∧
     outers σ' !! encoders r = outers σ !! encoders r).
Proof.
  intros Hinv. pose proof Hinv as (Hne & [te He] & [td Hd] & _).
  assert (∀ t v' o', (v', o') ≠ (v, o) →
    look (add2 t v o f) v' o' = look t v' o') as Hother.
  { intros t v' o' Hvo. rewrite look_add2.
    destruct (Z.eqb_spec v v') as [->|]; [|done].
    destruct (Z.eqb_spec o o') as [->|]; done. }
  assert (∀ t, look (add2 t v o f) v o = Some f) as Hsame.
  { intros t. by rewrite look_add2, !Z.eqb_refl. }
  split.
  - destruct (register_step σ r (Encoder v o f) te td Hinv He Hd)
      as (σ' & Hrun & Hinv' & He' & Hd' & Hfr). simpl in *.
    exists σ'. rewrite He, Hd, He', Hd'. split_and!; try done.
    + by rewrite (lookup2_resolve _ _ _ _ _ He').
    + intros v' o' Hvo.
      rewrite (lookup2_resolve _ _ _ _ _ He'), (lookup2_resolve _ _ _ _ _ He).
      by apply Hother.
    + destruct Hfr as [[(Hout & _) _]|[(Hout & _) _]].
      * apply Hout. done.
      * destruct (_add_resolve σ (encoders r) te v o f He)
          as (σ1 & Hrun1 & _ & _ & (Hout1 & _)).
        { destruct Hinv as (_ & _ & _ & (? & _)%NoDup_app). done. }
        assert (σ1 = σ') as -> by (unfold add_encoder in Hrun; congruence).
        by apply Hout1.
  - destruct (register_step σ r (Decoder v o f) te td Hinv He Hd)
      as (σ' & Hrun & Hinv' & He' & Hd' & Hfr). simpl in *.
    exists σ'. rewrite He, Hd, He', Hd'. split_and!; try done.
    + by rewrite (lookup2_resolve _ _ _ _ _ Hd').
    + intros v' o' Hvo.
      rewrite (lookup2_resolve _ _ _ _ _ Hd'), (lookup2_resolve _ _ _ _ _ Hd).
      by apply Hother.
    + destruct (_add_resolve σ (decoders r) td v o f Hd)
        as (σ1 & Hrun1 & _ & _ & (Hout1 & _)).
      { destruct Hinv as (_ & _ & _ & (_ & _ & ?)%NoDup_app). done. }
      assert (σ1 = σ') as -> by (unfold add_decoder in Hrun; congruence).
      by apply Hout1.
Qed.

Lemma add_modifies_single_entry_witness :
  registry_after
    [Encoder V4 7 (encode QueryMessage); Decoder V4 8 (decode ResultMessage_Codec)]
    empty_heap = Ret (Registry 0 1) small_store ∧
  reg_inv small_store (Registry 0 1) ∧
  ∃ σ', add_encoder (Registry 0 1) V3 7 (encode QueryMessage) small_store
          = Ret tt σ' ∧
        lookup2 σ' 0%nat V3 7 = Some (encode QueryMessage) ∧
        lookup2 σ' 0%nat V4 7 = lookup2 small_store 0%nat V4 7 ∧
        resolve σ' 1%nat = resolve small_store 1%nat.
Proof.
  assert (reg_inv small_store (Registry 0 1)) as Hinv.
  { apply (bool_decide_unpack _). vm_compute. exact I. }
  split; [vm_compute; reflexivity|]. split; [exact Hinv|].
  destruct (add_modifies_single_entry small_store (Registry 0 1) V3 7
              (encode QueryMessage) Hinv)
    as [(σ' & Hrun & _ & _ & Hget & Hother & Hdec & _) _].
  exists σ'. split; [exact Hrun|]. split; [exact Hget|]. split; [|exact Hdec].
  apply Hother. intros Heq. discriminate Heq.
Defined.

Lemma handler_snapshot σa r ops :
  reg_inv σa r →
  ∃ h σ1 σ2 te td,
    _ProtocolHandler_init (encoders r) (decoders r) σa = Ret h σ1 ∧
    register_all r ops σ1 = Ret tt σ2 ∧
    resolve σ1 (handler_encoders h) = Some te ∧
    resolve σ2 (handler_encoders h) = Some te ∧
    resolve σ1 (handler_decoders h) = Some td ∧
    resolve σ2 (handler_decoders h) = Some td.
Proof.
  intros Hinv. pose proof Hinv as (_ & [te He] & [td Hd] & _).
  destruct (_ProtocolHandler_init_spec σa _ _ _ _ He Hd)
    as (h & σ1 & te' & td' & Hrun1 & Hle & Hhe & Hhd & _ & _ & Hfe & Hfd & Hre & Hrd).
  pose proof (reg_inv_le _ _ _ Hle Hinv) as Hinv1.
  pose proof (resolve_le _ _ _ _ Hle He) as He1.
  pose proof (resolve_le _ _ _ _ Hle Hd) as Hd1.
  destruct (register_all_steps σ1 r ops _ _ Hinv1 He1 Hd1)
    as (σ2 & Hrun2 & Hinv2 & He2 & Hd2).
  exists h, σ1, σ2, te', td'. split_and!; try done.
  - eapply (register_all_apart ops σ1 σ2 r); try done;
      by eapply apart_sym_fresh.
  - eapply (register_all_apart ops σ1 σ2 r); try done;
      by eapply apart_sym_fresh.
Qed.

(** C3. A handler's maps are a snapshot of the registry it was built from.
    For a handler built from a registry that received any registrations, and
    for the default handler of a [DriverContext] in particular, any later
    sequence of [add_encoder] and [add_decoder] calls on that registry
    leaves the entry the handler holds for every (version, opcode) pair,
    hence what it encodes and decodes with, unchanged. *)
Theorem protocol_handler_is_snapshot
    (P : Protocol) (ops0 ops : list registration) (σ0 : heap) :
  (∃ r h σ1 σ2,
     (let* r := registry_after ops0 in
      let* h := _ProtocolHandler_init (encoders r) (decoders r) in
      ret (r, h)) σ0 = Ret (r, h) σ1 ∧
     register_all r ops σ1 = Ret tt σ2 ∧
     (∀ v o, handler_encoder σ2 h v o = handler_encoder σ1 h v o) ∧
     (∀ v o, handler_decoder σ2 h v o = handler_decoder σ1 h v o) ∧
     resolve σ2 (handler_encoders h) = resolve σ1 (handler_encoders h) ∧
     resolve σ2 (handler_decoders h) = resolve σ1 (handler_decoders h)) ∧
  (∃ r h σ1 σ2,
     protocol_handler P DriverContext_new σ0
       = Ret (h, Context (Some r) (Some h)) σ1 ∧
     register_all r ops σ1 = Ret tt σ2 ∧
     (∀ v o, handler_encoder σ2 h v o = handler_encoder σ1 h v o) ∧
     (∀ v o, handler_decoder σ2 h v o = handler_decoder σ1 h v o) ∧
     resolve σ2 (handler_encoders h) = resolve σ1 (handler_encoders h) ∧
     resolve σ2 (handler_decoders h) = resolve σ1 (handler_decoders h)).
Proof.
  split.
  - destruct (registry_after_spec ops0 σ0) as (r & σa & Hrun & Hinv & _).
    destruct (handler_snapshot σa r ops Hinv)
      as (h & σ1 & σ2 & te & td & Hrun1 & Hrun2 & He1 & He2 & Hd1 & Hd2).
    exists r, h, σ1, σ2. split_and!.
    + unfold bind, ret. by rewrite Hrun, Hrun1.
    + done.
    + intros v o. unfold handler_encoder.
      by rewrite (lookup2_resolve _ _ _ _ _ He1), (lookup2_resolve _ _ _ _ _ He2).
    + intros v o. unfold handler_decoder.
      by rewrite (lookup2_resolve _ _ _ _ _ Hd1), (lookup2_resolve _ _ _ _ _ Hd2).
    + congruence.
    + congruence.
  - destruct (build_spec P σ0) as (r & σa & i3 & i4 & i5 & Hrun & Hinv & _).
    destruct (handler_snapshot σa r ops Hinv)
      as (h & σ1 & σ2 & te & td & Hrun1 & Hrun2 & He1 & He2 & Hd1 & Hd2).
    exists r, h, σ1, σ2. split_and!.
    + unfold protocol_handler, message_codec_registry, DriverContext_new; simpl.
      unfold bind, ret. rewrite Hrun. simpl.
      by rewrite Hrun1.
    + done.
    + intros v o. unfold handler_encoder.
      by rewrite (lookup2_resolve _ _ _ _ _ He1), (lookup2_resolve _ _ _ _ _ He2).
    + intros v o. unfold handler_decoder.
      by rewrite (lookup2_resolve _ _ _ _ _ Hd1), (lookup2_resolve _ _ _ _ _ Hd2).
    + congruence.
    + congruence.
Qed.

(** After the default handler was built, the registry replaces its encoder
    for (V4, 0x07): the registry returns the new function, the handler still
    holds the old one. *)
Example registry_changes_handler_keeps_V4_07 :
  ∃ h r c σ,
    (let* hc := protocol_handler native_protocol DriverContext_new in
     let* rc := message_codec_registry native_protocol hc.2 in
     add_encoder rc.1 V4 7 (callable 0) >>
     ret (hc.1, rc.1, rc.2)) empty_heap = Ret (h, r, c) σ ∧
    get_encoder r V4 7 σ = Ret (callable 0) σ ∧
    handler_encoder σ h V4 7 = Some (encode QueryMessage).
Proof. vm_compute. eexists _, _, _, _. split_and!; reflexivity. Qed.

Lemma custom_handler_override P c σ (base : ProtocolHandler) :
  is_Some (resolve σ (handler_encoders base)) →
  is_Some (resolve σ (handler_decoders base)) →
  ∃ h σ',
    custom_handler_init P c (handler_encoders base) (handler_decoders base) σ
      = Ret h σ' ∧
    heap_le σ σ' ∧
    resolve σ' (handler_encoders base) = resolve σ (handler_encoders base) ∧
    resolve σ' (handler_decoders base) = resolve σ (handler_decoders base) ∧
    (∀ v o, handler_encoder σ' base v o = handler_encoder σ base v o) ∧
    (∀ v o, handler_decoder σ' base v o = handler_decoder σ base v o) ∧
    (∀ v o, copied_entry (codecs σ)
              (handler_encoder σ' base v o) (handler_encoder σ' h v o)) ∧
    (∀ v o, o ≠ result_message_opcode P →
       copied_entry (codecs σ)
         (handler_decoder σ' base v o) (handler_decoder σ' h v o)) ∧
    (∀ v, is_Some (outers σ !! handler_decoders base ≫= fun m => dict_get m v) →
       handler_decoder σ' h v (result_message_opcode P) = Some (custom_decode c)) ∧
    handler_encoders h ≠ handler_encoders base ∧
    handler_decoders h ≠ handler_decoders base.
Proof.
  intros [te He] [td Hd].
  destruct (custom_handler_init_spec P c σ _ _ te td He Hd)
    as (h & σ' & te' & td' & Hrun & Hle & Hhe & Hhd & Hcpe & Hkeys & Hcpd
        & Hres & Hfe & Hfd).
  pose proof (resolve_le _ _ _ _ Hle He) as He'.
  pose proof (resolve_le _ _ _ _ Hle Hd) as Hd'.
  exists h, σ'. unfold handler_encoder, handler_decoder.
  split_and!; try done.
  - congruence.
  - congruence.
  - intros v o.
    by rewrite (lookup2_resolve _ _ _ _ _ He'), (lookup2_resolve _ _ _ _ _ He).
  - intros v o.
    by rewrite (lookup2_resolve _ _ _ _ _ Hd'), (lookup2_resolve _ _ _ _ _ Hd).
  - intros v o.
    rewrite (lookup2_resolve _ _ _ _ _ He'), (lookup2_resolve _ _ _ _ _ Hhe).
    by apply copied_maps_look.
  - intros v o Ho.
    rewrite (lookup2_resolve _ _ _ _ _ Hd'), (lookup2_resolve _ _ _ _ _ Hhd).
    by apply Hcpd.
  - intros v Hv. rewrite (lookup2_resolve _ _ _ _ _ Hhd). apply Hres.
    apply resolve_Some in Hd as (m & Hm & Hmt). rewrite Hm in Hv. simpl in Hv.
    rewrite <-(entries_keys _ _ _ Hmt). by apply dict_get_is_Some.
  - intros Heq. rewrite Heq in Hfe.
    apply resolve_Some in He as (m & Hm & _). congruence.
  - intros Heq. rewrite Heq in Hfd.
    apply resolve_Some in Hd as (m & Hm & _). congruence.
Qed.

(** C6, as amended. A handler built by a custom constructor from the maps
    of a base handler (deep copy of the decoder map, override of the result
    decoder under every version) holds, for every (version, opcode) pair
    whose opcode is not the result opcode, the deep copy of the decode
    function of the base handler, and for every pair the deep copy of its
    encode function.  The copy does what the original does; it is equal to
    the original ([==]) when the original is bound to a class, and it is the
    same method bound to a new error codec object with the same table, hence
    another function reference, when the original is bound to an error codec
    object.  At the result opcode the handler holds the custom decoder under
    every version of the base. *)
Theorem custom_handler_overrides_only_result_in_copy
    (P : Protocol) (σ : heap) (base : ProtocolHandler) :
  is_Some (resolve σ (handler_encoders base)) →
  is_Some (resolve σ (handler_decoders base)) →
  overrides_only_result_in_copy P σ base
    (CustomTestRawRowType_init P) CustomResultMessageRaw_Codec ∧
  overrides_only_result_in_copy P σ base
    (CustomProtocolHandlerResultMessageTracked_init P)
    CustomResultMessageTracked_Codec.
Proof.
  intros He Hd. split.
  - destruct (custom_handler_override P CustomResultMessageRaw_Codec σ base He Hd)
      as (h & σ' & Hrun & _ & _ & _ & _ & _ & Henc & Hdec & Hres & _).
    exists h, σ'. split_and!; [done| | |done].
    + intros v o Ho. by apply copied_entry_base, Hdec.
    + intros v o. by apply copied_entry_base, Henc.
  - destruct (custom_handler_override P CustomResultMessageTracked_Codec σ base He Hd)
      as (h & σ' & Hrun & _ & _ & _ & _ & _ & Henc & Hdec & Hres & _).
    exists h, σ'. split_and!; [done| | |done].
    + intros v o Ho. by apply copied_entry_base, Hdec.
    + intros v o. by apply copied_entry_base, Henc.
Qed.

Lemma custom_handler_overrides_only_result_in_copy_witness :
  protocol_handler native_protocol DriverContext_new empty_heap
    = Ret (default_handler, Context (Some (Registry 0 1)) (Some default_handler))
          default_store ∧
  overrides_only_result_in_copy native_protocol default_store default_handler
    (CustomTestRawRowType_init native_protocol) CustomResultMessageRaw_Codec.
Proof.
  split; [vm_compute; reflexivity|].
  apply (custom_handler_overrides_only_result_in_copy native_protocol
           default_store default_handler).
  - vm_compute. eexists. reflexivity.
  - vm_compute. eexists. reflexivity.
Defined.

(** C6, as stated, fails: the raw-row handler built from the default
    handler does not hold, under V4 and at the error opcode, the decode
    function that the default handler holds there.  It holds the decoder of
    a copy of the error codec. *)
Lemma custom_handler_not_same_function_reference :
  ¬ overrides_only_result native_protocol default_store default_handler
      (CustomTestRawRowType_init native_protocol) CustomResultMessageRaw_Codec.
Proof.
  intros (h & σ' & Hrun & Hdec & _).
  vm_compute in Hrun. injection Hrun as <- <-.
  specialize (Hdec V4 0 ltac:(done)). vm_compute in Hdec. discriminate Hdec.
Qed.

(** The override at work on the default handler: under V4 the error decoder
    is bound to another codec object than the one of the base, with the same
    table of 19 entries; the decoder of a class is the one of the base; the
    result decoder is the custom one. *)
Example raw_row_handler_V4 :
  ∃ h σ' self self' tbl,
    CustomTestRawRowType_init native_protocol 2%nat 3%nat default_store
      = Ret h σ' ∧
    handler_decoder σ' default_handler V4 0 = Some (codec_decode self tbl) ∧
    handler_decoder σ' h V4 0 = Some (codec_decode self' tbl) ∧
    self ≠ self' ∧ length tbl = 19%nat ∧
    handler_decoder σ' h V4 2 = handler_decoder σ' default_handler V4 2 ∧
    handler_decoder σ' default_handler V4 8 = Some (decode ResultMessage_Codec) ∧
    handler_decoder σ' h V4 8 = Some (custom_decode CustomResultMessageRaw_Codec).
Proof. vm_compute. eexists _, _, _, _, _. split_and!; try reflexivity. done. Qed.

(** C7. A custom constructor copies the base decoder map before patching,
    so that building the override handler leaves the maps of the base
    handler unmodified: every dictionary of the store is unchanged, the
    patched map is another object, and the base handler holds the same
    function as before for every (version, opcode) pair, for encoding and
    for decoding. *)
Theorem custom_handler_leaves_base_unmodified
    (P : Protocol) (σ : heap) (base : ProtocolHandler) :
  is_Some (resolve σ (handler_encoders base)) →
  is_Some (resolve σ (handler_decoders base)) →
  leaves_base_unmodified σ base (CustomTestRawRowType_init P) ∧
  leaves_base_unmodified σ base
    (CustomProtocolHandlerResultMessageTracked_init P).
Proof.
  intros He Hd. split.
  - destruct (custom_handler_override P CustomResultMessageRaw_Codec σ base He Hd)
      as (h & σ' & Hrun & Hle & He' & Hd' & Hbe & Hbd & _ & _ & _ & _ & Hne).
    by exists h, σ'.
  - destruct (custom_handler_override P CustomResultMessageTracked_Codec σ base He Hd)
      as (h & σ' & Hrun & Hle & He' & Hd' & Hbe & Hbd & _ & _ & _ & _ & Hne).
    by exists h, σ'.
Qed.

Lemma custom_handler_leaves_base_unmodified_witness :
  leaves_base_unmodified default_store default_handler
    (CustomTestRawRowType_init native_protocol) ∧
  leaves_base_unmodified default_store default_handler
    (CustomProtocolHandlerResultMessageTracked_init native_protocol).
Proof.
  apply (custom_handler_leaves_base_unmodified native_protocol default_store
           default_handler).
  - vm_compute. eexists. reflexivity.
  - vm_compute. eexists. reflexivity.
Defined.

Lemma dict_get_fold_is_Some {V} (items : list (Z * V)) (acc : dict V) k :
  is_Some (dict_get (fold_left (fun d kv => dict_set d kv.1 kv.2) items acc) k) ↔
  is_Some (dict_get acc k) ∨ k ∈ items.*1.
Proof.
  revert acc. induction items as [|[k' v] items IH]; intros acc; simpl.
  - rewrite elem_of_nil. naive_solver.
  - rewrite IH, dict_get_set, elem_of_cons.
    destruct (Z.eqb_spec k' k) as [->|Hne]; [naive_solver|].
    split; [naive_solver|]. intros [?|[?|?]]; [by left|congruence|by right].
Qed.

Lemma dict_of_items_is_Some {V} (items : list (Z * V)) k :
  is_Some (dict_get (dict_of_items items) k) ↔ k ∈ items.*1.
Proof.
  unfold dict_of_items. rewrite dict_get_fold_is_Some. simpl.
  split; [|by right]. by intros [[? [=]]|?].
Qed.

Lemma look_absent (t : dict (dict func)) v o :
  v ∉ dict_keys t → look t v o = None.
Proof.
  intros Hv. unfold look.
  destruct (dict_get t v) as [c|] eqn:E; [|done].
  destruct Hv. apply dict_get_is_Some. eauto.
Qed.

Lemma look_versions (D : dict func) (vs : list Z) v o :
  look (map (fun v => (v, D)) vs) v o =
    if decide (v ∈ vs) then dict_get D o else None.
Proof.
  unfold look. induction vs as [|v' vs IH].
  - destruct (decide (v ∈ [])) as [H|]; [by apply elem_of_nil in H|done].
  - cbn [map dict_get]. destruct (Z.eqb_spec v' v) as [->|Hne].
    + cbn [mbind option_bind].
      destruct (decide (v ∈ v :: vs)) as [|H]; [done|]. destruct H. left.
    + rewrite IH.
      destruct (decide (v ∈ vs)) as [H|H], (decide (v ∈ v' :: vs)) as [H'|H'];
        try done.
      * destruct H'. by right.
      * apply elem_of_cons in H' as [?|?]; congruence.
Qed.

Lemma elem_of_request_classes m : m ∈ request_classes.
Proof. destruct m; unfold request_classes; repeat constructor. Qed.

Lemma elem_of_response_classes c : c ∈ response_classes.
Proof. destruct c; unfold response_classes; repeat constructor. Qed.

Lemma elem_of_error_classes e : e ∈ error_classes.
Proof. destruct e; unfold error_classes; repeat constructor. Qed.

Lemma NoDup_request_classes : NoDup request_classes.
Proof. apply (bool_decide_unpack _). vm_compute. exact I. Qed.

Lemma NoDup_response_classes : NoDup response_classes.
Proof. apply (bool_decide_unpack _). vm_compute. exact I. Qed.

Lemma NoDup_error_classes : NoDup error_classes.
Proof. apply (bool_decide_unpack _). vm_compute. exact I. Qed.

Lemma dict_of_items_inj {A V} `{EqDecision A} (g : A → Z) (h : A → V)
    (l : list A) (a : A) :
  Inj (=) (=) g → NoDup l → a ∈ l →
  dict_get (dict_of_items (map (fun x => (g x, h x)) l)) (g a) = Some (h a).
Proof.
  intros Hinj Hnd Ha.
  assert (NoDup (map (fun x => (g x, h x)) l).*1) as Hkeys.
  { rewrite <-list_fmap_compose. by apply (NoDup_fmap_2 _). }
  rewrite dict_of_items_nodup by done. apply dict_get_nodup; [done|].
  apply list_elem_of_fmap. by exists a.
Qed.

Lemma request_encoders_is_Some P o :
  is_Some (dict_get (request_encoders P) o) ↔ ∃ m, o = request_opcode P m.
Proof.
  unfold request_encoders. rewrite dict_of_items_is_Some.
  rewrite <-list_fmap_compose, list_elem_of_fmap. simpl. split.
  - intros (m & -> & _). by exists m.
  - intros [m ->]. exists m. split; [done|apply elem_of_request_classes].
Qed.

Lemma response_decoders_is_Some P self o :
  is_Some (dict_get (response_decoders P self) o) ↔
  (∃ c, o = codec_opcode P c) ∨ o = error_codec_opcode P.
Proof.
  unfold response_decoders. rewrite dict_get_set.
  destruct (Z.eqb_spec (error_codec_opcode P) o) as [->|Hne].
  - split; [by right|by eexists].
  - rewrite dict_of_items_is_Some, <-list_fmap_compose, list_elem_of_fmap.
    simpl. split.
    + intros (c & -> & _). left. by exists c.
    + intros [[c ->]|?]; [|congruence].
      exists c. split; [done|apply elem_of_response_classes].
Qed.

Lemma look_default_decoders_absent P i3 i4 i5 v o :
  v ∉ [V3; V4; V5] → look (default_decoders P i3 i4 i5) v o = None.
Proof.
  intros Hv. apply look_absent. by intros Hin.
Qed.

Lemma look_default_decoders P i3 i4 i5 v o :
  v ∈ [V3; V4; V5] →
  ∃ self, self ∈ [i3; i4; i5] ∧
    look (default_decoders P i3 i4 i5) v o = dict_get (response_decoders P self) o.
Proof.
  intros Hv. repeat (apply elem_of_cons in Hv as [->|Hv]).
  - exists i3. split; [|done]. repeat constructor.
  - exists i4. split; [|done]. repeat constructor.
  - exists i5. split; [|done]. repeat constructor.
  - by apply elem_of_nil in Hv.
Qed.

Lemma default_decoders_is_Some P i3 i4 i5 v o :
  is_Some (look (default_decoders P i3 i4 i5) v o) ↔
  v ∈ [V3; V4; V5] ∧
  ((∃ c, o = codec_opcode P c) ∨ o = error_codec_opcode P).
Proof.
  destruct (decide (v ∈ [V3; V4; V5])) as [Hv|Hv].
  - destruct (look_default_decoders P i3 i4 i5 v o Hv) as (self & _ & ->).
    rewrite response_decoders_is_Some. naive_solver.
  - rewrite look_default_decoders_absent by done.
    split; [by intros [? ?]|]. by intros [? _].
Qed.

Lemma get_Ret_is_Some σ d t v o :
  resolve σ d = Some t →
  (∃ f, _get d v o σ = Ret f σ) ↔ is_Some (look t v o).
Proof.
  intros Hres. rewrite (_get_resolve _ _ _ _ _ Hres).
  destruct (look t v o) as [f|]; split.
  - by eexists.
  - by exists f.
  - by intros [? ?].
  - by intros [? ?].
Qed.

(** C5. The default registry holds, under each of V3, V4 and V5, an encoder
    for the opcode of each of the eight outbound message classes and a
    decoder for the opcode of each of the eight inbound kinds (the seven
    message codecs and the error codec), and holds no entry under any other
    (version, opcode) key: the two maps have exactly the keys V3, V4, V5,
    and a lookup succeeds exactly on these pairs.  When the opcodes of the
    classes are pairwise distinct, the entry at the opcode of a class is the
    [encode] (resp. [decode]) of that class. *)
Theorem default_registry_entries (P : Protocol) (σ0 : heap) :
  ∃ r σ, _build_message_codec_registry P σ0 = Ret r σ ∧
    dict_keys <$> resolve σ (encoders r) = Some [V3; V4; V5] ∧
    dict_keys <$> resolve σ (decoders r) = Some [V3; V4; V5] ∧
    (∀ v o, (∃ f, get_encoder r v o σ = Ret f σ) ↔
            v ∈ [V3; V4; V5] ∧ ∃ m, o = request_opcode P m) ∧
    (∀ v o, (∃ f, get_decoder r v o σ = Ret f σ) ↔
            v ∈ [V3; V4; V5] ∧
            ((∃ c, o = codec_opcode P c) ∨ o = error_codec_opcode P)) ∧
    length request_classes = 8%nat ∧
    (∀ self,
       length (map (class_codec P) response_classes ++
               [ErrorMessage_Codec P self
                  (map (fun e => (error_code P e, error_decode e)) error_classes)])
         = 8%nat) ∧
    (Inj (=) (=) (request_opcode P) →
     ∀ v m, v ∈ [V3; V4; V5] →
       get_encoder r v (request_opcode P m) σ = Ret (encode m) σ) ∧
    (Inj (=) (=) (codec_opcode P) →
     (∀ c, codec_opcode P c ≠ error_codec_opcode P) →
     ∀ v c, v ∈ [V3; V4; V5] →
       get_decoder r v (codec_opcode P c) σ = Ret (decode c) σ).
Proof.
  destruct (build_spec P σ0) as (r & σ & i3 & i4 & i5 & Hrun & _ & He & Hd & _).
  exists r, σ. split_and!.
  - done.
  - by rewrite He.
  - by rewrite Hd.
  - intros v o. unfold get_encoder. rewrite (get_Ret_is_Some _ _ _ _ _ He).
    unfold default_encoders. rewrite look_versions.
    destruct (decide (v ∈ protocol_versions)) as [Hv|Hv].
    + rewrite request_encoders_is_Some. naive_solver.
    + split; [by intros [? ?]|]. by intros [? _].
  - intros v o. unfold get_decoder. rewrite (get_Ret_is_Some _ _ _ _ _ Hd).
    apply default_decoders_is_Some.
  - done.
  - done.
  - intros Hinj v m Hv. unfold get_encoder.
    rewrite (_get_resolve _ _ _ _ _ He). unfold default_encoders.
    rewrite look_versions, decide_True by done.
    unfold request_encoders.
    by rewrite (dict_of_items_inj _ _ request_classes m Hinj
                  NoDup_request_classes (elem_of_request_classes m)).
  - intros Hinj Hne v c Hv. unfold get_decoder.
    rewrite (_get_resolve _ _ _ _ _ Hd).
    destruct (look_default_decoders P i3 i4 i5 v (codec_opcode P c) Hv)
      as (self & _ & ->).
    unfold response_decoders.
    rewrite dict_get_set_ne by (intros Heq; by eapply Hne).
    by rewrite (dict_of_items_inj _ _ response_classes c Hinj
                  NoDup_response_classes (elem_of_response_classes c)).
Qed.

Lemma default_registry_entries_witness :
  ∃ r σ, _build_message_codec_registry native_protocol empty_heap = Ret r σ ∧
    (∀ v m, v ∈ [V3; V4; V5] →
       get_encoder r v (request_opcode native_protocol m) σ = Ret (encode m) σ) ∧
    (∀ v c, v ∈ [V3; V4; V5] →
       get_decoder r v (codec_opcode native_protocol c) σ = Ret (decode c) σ).
Proof.
  destruct (default_registry_entries native_protocol empty_heap)
    as (r & σ & Hrun & _ & _ & _ & _ & _ & _ & Henc & Hdec).
  exists r, σ. split; [exact Hrun|]. split.
  - apply Henc. intros m1 m2. destruct m1, m2; simpl; intros H; done.
  - apply Hdec.
    + intros c1 c2. destruct c1, c2; simpl; intros H; done.
    + intros c. destruct c; simpl; done.
Defined.

(** With the numbers of the native protocol, in the empty store. *)
Example native_default_registry :
  ∃ r σ, _build_message_codec_registry native_protocol empty_heap = Ret r σ ∧
    resolve σ (encoders r) = Some (default_encoders native_protocol) ∧
    get_encoder r V4 7 σ = Ret (encode QueryMessage) σ ∧
    get_decoder r V5 8 σ = Ret (decode ResultMessage_Codec) σ ∧
    get_encoder r V4 8 σ =
      Raise (ValueError
        "No codec registered for message '08' and protocol version '4'") σ ∧
    get_decoder r 2 8 σ =
      Raise (ValueError
        "No codec registered for message '08' and protocol version '2'") σ.
Proof. vm_compute. eexists _, _. split_and!; reflexivity. Qed.

(** C8. In the default registry the encoder of an outbound message class is
    the same function under V3, V4 and V5: the three versions hold the same
    entry at every opcode, and at the opcode of every outbound message
    class this entry exists. *)
Theorem default_encoders_same_across_versions (P : Protocol) (σ0 : heap) :
  ∃ r σ, _build_message_codec_registry P σ0 = Ret r σ ∧
    (∀ m, ∃ f,
       get_encoder r V3 (request_opcode P m) σ = Ret f σ ∧
       get_encoder r V4 (request_opcode P m) σ = Ret f σ ∧
       get_encoder r V5 (request_opcode P m) σ = Ret f σ) ∧
    (∀ o, lookup2 σ (encoders r) V3 o = lookup2 σ (encoders r) V4 o ∧
          lookup2 σ (encoders r) V4 o = lookup2 σ (encoders r) V5 o).
Proof.
  destruct (build_spec P σ0) as (r & σ & i3 & i4 & i5 & Hrun & _ & He & Hd & _).
  exists r, σ. split_and!; [done|..].
  - intros m.
    destruct (proj2 (request_encoders_is_Some P (request_opcode P m)))
      as [f Hf]; [by exists m|].
    exists f. unfold get_encoder.
    rewrite !(_get_resolve _ _ _ _ _ He). unfold default_encoders.
    rewrite !look_versions. simpl. by rewrite Hf.
  - intros o. rewrite !(lookup2_resolve _ _ _ _ _ He). unfold default_encoders.
    by rewrite !look_versions.
Qed.

Lemma erase_dict_set c k f :
  erase_dict (dict_set c k f) = dict_set (erase_dict c) k (erase_self f).
Proof.
  induction c as [|[k' f'] c IH]; simpl; [done|].
  destruct (Z.eqb k' k); simpl; [done|]. by rewrite IH.
Qed.

Lemma erase_dict_get c o :
  dict_get (erase_dict c) o = erase_self <$> dict_get c o.
Proof.
  induction c as [|[k f] c IH]; simpl; [done|]. by destruct (Z.eqb k o).
Qed.

Lemma look_erase_maps t v o :
  look (erase_maps t) v o = erase_self <$> look t v o.
Proof.
  unfold look. induction t as [|[k c] t IH]; simpl; [done|].
  destruct (Z.eqb k v); simpl; [apply erase_dict_get|done].
Qed.

Lemma erase_dict_fold items :
  ∀ acc, erase_dict (fold_left (fun d kv => dict_set d kv.1 kv.2) items acc) =
    fold_left (fun d kv => dict_set d kv.1 kv.2)
      (map (fun kf => (kf.1, erase_self kf.2)) items) (erase_dict acc).
Proof.
  induction items as [|[k f] items IH]; intros acc; simpl; [done|].
  by rewrite IH, erase_dict_set.
Qed.

Lemma erase_response_decoders P self :
  erase_dict (response_decoders P self) = response_decoders P 0%nat.
Proof.
  unfold response_decoders, dict_of_items.
  rewrite erase_dict_set, erase_dict_fold, map_map. done.
Qed.

Lemma erase_default_decoders P i3 i4 i5 :
  erase_maps (default_decoders P i3 i4 i5) = default_decoders P 0%nat 0%nat 0%nat.
Proof.
  unfold default_decoders, erase_maps. cbn [map fst snd].
  by rewrite !erase_response_decoders.
Qed.

Lemma look_default_error P i3 i4 i5 :
  look (default_decoders P i3 i4 i5) V3 (error_codec_opcode P)
    = Some (codec_decode i3 (error_table P)) ∧
  look (default_decoders P i3 i4 i5) V4 (error_codec_opcode P)
    = Some (codec_decode i4 (error_table P)) ∧
  look (default_decoders P i3 i4 i5) V5 (error_codec_opcode P)
    = Some (codec_decode i5 (error_table P)).
Proof. split_and!; apply dict_get_set_eq. Qed.

Lemma look_default_class P i3 i4 i5 v o :
  o ≠ error_codec_opcode P →
  look (default_decoders P i3 i4 i5) v o
    = look (default_decoders P 0%nat 0%nat 0%nat) v o.
Proof.
  intros Ho. destruct (decide (v ∈ [V3; V4; V5])) as [Hv|Hv].
  - repeat (apply elem_of_cons in Hv as [->|Hv]);
      [| | |by apply elem_of_nil in Hv];
      apply (eq_trans (dict_get_set_ne _ _ _ _ (not_eq_sym Ho)));
      symmetry; apply (dict_get_set_ne _ _ _ _ (not_eq_sym Ho)).
  - by rewrite !look_default_decoders_absent.
Qed.

(** C9. Calling the default build twice gives two registries, distinct
    objects, whose encoder maps have the same content and whose decoder maps
    have the same versions, the same opcodes under each version and
    functionally identical entries at each (version, opcode) pair.  Every
    lookup of an encoder has the same outcome on both; every lookup of a
    decoder has the same outcome on both but for the error codec object the
    decoder found is bound to, and the same outcome outright at every opcode
    other than the error opcode.  At the error opcode the two builds hold
    the decoders of two distinct error codec objects, which [erase_self]
    identifies as they dispatch on the same table. *)
Theorem default_build_twice (P : Protocol) (σ0 : heap) :
  ∃ r1 r2 σ,
    (let* r1 := _build_message_codec_registry P in
     let* r2 := _build_message_codec_registry P in
     ret (r1, r2)) σ0 = Ret (r1, r2) σ ∧
    encoders r1 ≠ encoders r2 ∧ decoders r1 ≠ decoders r2 ∧
    is_Some (resolve σ (encoders r1)) ∧
    is_Some (resolve σ (decoders r1)) ∧
    resolve σ (encoders r1) = resolve σ (encoders r2) ∧
    erase_maps <$> resolve σ (decoders r1)
      = erase_maps <$> resolve σ (decoders r2) ∧
    (∀ v o, get_encoder r1 v o σ = get_encoder r2 v o σ) ∧
    (∀ v o, outcome_map erase_self (get_decoder r1 v o σ)
            = outcome_map erase_self (get_decoder r2 v o σ)) ∧
    (∀ v o, o ≠ error_codec_opcode P →
            get_decoder r1 v o σ = get_decoder r2 v o σ) ∧
    (∀ v, v ∈ [V3; V4; V5] →
       ∃ self1 self2 tbl, self1 ≠ self2 ∧
         get_decoder r1 v (error_codec_opcode P) σ
           = Ret (codec_decode self1 tbl) σ ∧
         get_decoder r2 v (error_codec_opcode P) σ
           = Ret (codec_decode self2 tbl) σ).
Proof.
  destruct (build_spec P σ0)
    as (r1 & σ1 & i3 & i4 & i5 & Hrun1 & _ & He1 & Hd1 & Hids1 & Hcod1 & _).
  destruct (build_spec P σ1)
    as (r2 & σ & j3 & j4 & j5 & Hrun2 & _ & He2 & Hd2 & Hids2 & _ & σ' & Hrun2' & Hσ).
  assert (∀ d, resolve σ d = resolve σ' d) as Hres.
  { intros d. by rewrite Hσ. }
  destruct (registry_after_frame _ _ _ _ _ _ Hrun2' He1) as (He1' & Hne1 & _).
  destruct (registry_after_frame _ _ _ _ _ _ Hrun2' Hd1) as (Hd1' & _ & Hne2).
  rewrite <-Hres in He1', Hd1'.
  apply build_codecs_fresh in Hids1 as (_ & _ & _ & _), Hids2 as (Hj3 & Hj4 & Hj5 & _).
  rewrite Hcod1 in Hj3, Hj4, Hj5.
  destruct (look_default_error P i3 i4 i5) as (Hi3 & Hi4 & Hi5).
  destruct (look_default_error P j3 j4 j5) as (Hk3 & Hk4 & Hk5).
  exists r1, r2, σ. split_and!.
  - unfold bind, ret. by rewrite Hrun1, Hrun2.
  - done.
  - done.
  - by rewrite He1'.
  - by rewrite Hd1'.
  - by rewrite He1', He2.
  - rewrite Hd1', Hd2. apply (f_equal Some).
    by rewrite !erase_default_decoders.
  - intros v o. unfold get_encoder.
    by rewrite (_get_resolve _ _ _ _ _ He1'), (_get_resolve _ _ _ _ _ He2).
  - intros v o. unfold get_decoder.
    rewrite (_get_resolve _ _ _ _ _ Hd1'), (_get_resolve _ _ _ _ _ Hd2).
    pose proof (look_erase_maps (default_decoders P i3 i4 i5) v o) as H1.
    pose proof (look_erase_maps (default_decoders P j3 j4 j5) v o) as H2.
    rewrite erase_default_decoders in H1, H2. rewrite H1 in H2.
    destruct (look (default_decoders P i3 i4 i5) v o),
      (look (default_decoders P j3 j4 j5) v o); simpl in *; congruence.
  - intros v o Ho. unfold get_decoder.
    rewrite (_get_resolve _ _ _ _ _ Hd1'), (_get_resolve _ _ _ _ _ Hd2).
    by rewrite (look_default_class P i3 i4 i5), (look_default_class P j3 j4 j5).
  - intros v Hv. unfold get_decoder.
    rewrite (_get_resolve _ _ _ _ _ Hd1'), (_get_resolve _ _ _ _ _ Hd2).
    repeat (apply elem_of_cons in Hv as [->|Hv]);
      [| | |by apply elem_of_nil in Hv].
    + exists i3, j3, (error_table P). rewrite Hi3, Hk3.
      split; [|done]. set_solver.
    + exists i4, j4, (error_table P). rewrite Hi4, Hk4.
      split; [|done]. set_solver.
    + exists i5, j5, (error_table P). rewrite Hi5, Hk5.
      split; [|done]. set_solver.
Qed.

Lemma error_table_items P :
  Inj (=) (=) (error_code P) →
  error_table P = map (fun e => (error_code P e, error_decode e)) error_classes.
Proof.
  intros Hinj. unfold error_table. apply dict_of_items_nodup.
  rewrite <-list_fmap_compose. apply (NoDup_fmap_2 _), NoDup_error_classes.
Qed.

Lemma default_error_decoder P σ0 :
  ∃ r σ, _build_message_codec_registry P σ0 = Ret r σ ∧
    ∀ v, v ∈ [V3; V4; V5] →
      ∃ self, get_decoder r v (error_codec_opcode P) σ
                = Ret (codec_decode self (error_table P)) σ.
Proof.
  destruct (build_spec P σ0) as (r & σ & i3 & i4 & i5 & Hrun & _ & He & Hd & _).
  destruct (look_default_error P i3 i4 i5) as (H3 & H4 & H5).
  exists r, σ. split; [done|]. intros v Hv. unfold get_decoder.
  rewrite (_get_resolve _ _ _ _ _ Hd).
  repeat (apply elem_of_cons in Hv as [->|Hv]);
    [| | |by apply elem_of_nil in Hv].
  - exists i3. by rewrite H3.
  - exists i4. by rewrite H4.
  - exists i5. by rewrite H5.
Qed.

(** C4, as amended. In the default registry, when the error classes have
    pairwise distinct error codes, the decoder registered for the error
    opcode under each of V3, V4 and V5 has a dispatch table keyed by
    ErrorCode only that contains exactly the 19 error classes listed by the
    build (19, not 18), and no other entry. *)
Theorem error_dispatch_has_19_variants (P : Protocol) (σ0 : heap) :
  Inj (=) (=) (error_code P) → error_dispatch_table 19 P σ0.
Proof.
  intros Hinj. destruct (default_error_decoder P σ0) as (r & σ & Hrun & Hget).
  exists r, σ, (error_table P). split_and!; [done..| |].
  - by rewrite error_table_items.
  - intros self code d. simpl. rewrite error_table_items by done. split.
    + intros H. apply dict_get_elem_of in H.
      apply list_elem_of_fmap in H as (e & Heq & _).
      injection Heq as -> ->. by exists e.
    + intros (e & -> & ->). apply dict_get_nodup.
      * unfold dict_keys. rewrite <-list_fmap_compose.
        apply (NoDup_fmap_2 _), NoDup_error_classes.
      * apply list_elem_of_fmap. exists e.
        split; [done|apply elem_of_error_classes].
Qed.

Global Instance native_error_code_inj : Inj (=) (=) (error_code native_protocol).
Proof. intros e1 e2. destruct e1, e2; simpl; intros H; done. Qed.

Lemma error_dispatch_has_19_variants_witness :
  error_dispatch_table 19 native_protocol empty_heap.
Proof.
  apply (error_dispatch_has_19_variants native_protocol empty_heap).
  apply native_error_code_inj.
Defined.

(** C4, as stated, fails: with the error codes of the native protocol the
    table of the error decoder of the default registry does not have 18
    entries. *)
Lemma error_dispatch_not_18_variants :
  ¬ error_dispatch_table 18 native_protocol empty_heap.
Proof.
  intros (r & σ & tbl & Hrun & Hget & Hlen & _).
  vm_compute in Hrun. injection Hrun as <- <-.
  destruct (Hget V3 ltac:(left)) as [self Hself]. vm_compute in Hself.
  injection Hself as _ <-. vm_compute in Hlen. discriminate Hlen.
Qed.

(** * Further properties of the code *)

(** ** [cassandra/registry.py] *)




Lemma dict_keys_set {V} (d : dict V) k v :
  dict_keys (dict_set d k v) =
    if dict_contains d k then dict_keys d else dict_keys d ++ [k].
Proof.
  unfold dict_keys, dict_contains. induction d as [|[k' v'] d IH]; simpl; [done|].
  destruct (Z.eqb_spec k' k) as [->|Hne]; [done|].
  rewrite fmap_cons, IH. simpl. by destruct (dict_get d k).
Qed.

Lemma dict_set_keys_NoDup {V} (d : dict V) k v :
  NoDup (dict_keys d) → NoDup (dict_keys (dict_set d k v)).
Proof.
  intros Hnd. rewrite dict_keys_set. unfold dict_contains.
  destruct (dict_get d k) as [x|] eqn:E; [done|].
  apply NoDup_app. split_and!; [done| |apply NoDup_singleton].
  intros k' Hk' ->%list_elem_of_singleton.
  apply dict_get_is_Some in Hk' as [? ?]. congruence.
Qed.

Lemma dict_set_Forall {V} (Q : Z * V → Prop) (d : dict V) k v :
  Forall Q d → Q (k, v) → Forall Q (dict_set d k v).
Proof.
  intros Hd Hkv. induction Hd as [|[k' v'] d Hx Hd IH]; simpl.
  - by constructor.
  - destruct (Z.eqb_spec k' k) as [->|Hne]; by constructor.
Qed.

Lemma add2_keys_unique t v o f : keys_unique t → keys_unique (add2 t v o f).
Proof.
  intros [Hout Hin]. unfold add2. split.
  - by apply dict_set_keys_NoDup.
  - apply dict_set_Forall; [done|]. simpl. apply dict_set_keys_NoDup.
    destruct (dict_get t v) as [c|] eqn:E; simpl; [|apply NoDup_nil_2].
    apply dict_get_elem_of in E.
    by apply (proj1 (Forall_forall _ _) Hin (v, c)).
Qed.

Lemma enc_model_keys_unique ops : keys_unique (enc_model ops).
Proof.
  unfold enc_model.
  enough (∀ t, keys_unique t →
            keys_unique (fold_left (fun t op => enc_step op t) ops t)) as H.
  { apply H. split; [apply NoDup_nil_2|constructor]. }
  induction ops as [|op ops IH]; intros t Ht; simpl; [done|].
  apply IH. destruct op; simpl; [by apply add2_keys_unique|done].
Qed.

Lemma dec_model_keys_unique ops : keys_unique (dec_model ops).
Proof.
  unfold dec_model.
  enough (∀ t, keys_unique t →
            keys_unique (fold_left (fun t op => dec_step op t) ops t)) as H.
  { apply H. split; [apply NoDup_nil_2|constructor]. }
  induction ops as [|op ops IH]; intros t Ht; simpl; [done|].
  apply IH. destruct op; simpl; [done|by apply add2_keys_unique].
Qed.

(** X2. Whatever is registered, and in whatever order, a registry never
    holds two entries for one key: each of its two maps lists every version
    once, and the dictionary of a version lists every opcode once. *)
Theorem registry_keys_are_unique (ops : list registration) (σ0 : heap) :
  ∃ r σ te td,
    registry_after ops σ0 = Ret r σ ∧
    resolve σ (encoders r) = Some te ∧ keys_unique te ∧
    resolve σ (decoders r) = Some td ∧ keys_unique td.
Proof.
  destruct (registry_after_spec ops σ0) as (r & σ & Hrun & _ & He & Hd).
  exists r, σ, (enc_model ops), (dec_model ops). split_and!; try done.
  - apply enc_model_keys_unique.
  - apply dec_model_keys_unique.
Qed.

Lemma dict_set_set {V} (d : dict V) k v w :
  dict_set (dict_set d k v) k w = dict_set d k w.
Proof.
  induction d as [|[k' v'] d IH]; simpl.
  - by rewrite Z.eqb_refl.
  - destruct (Z.eqb_spec k' k) as [->|Hne]; simpl.
    + by rewrite Z.eqb_refl.
    + destruct (Z.eqb_spec k' k); [done|]. by rewrite IH.
Qed.

Lemma _add_twice σ d v o f g :
  is_Some (resolve σ d) →
  (_add d v o f >> _add d v o g) σ = _add d v o g σ ∧
  ∃ σ', _add d v o g σ = Ret tt σ'.
Proof.
  intros [t (m & Hm & Hmt)%resolve_Some]. unfold bind at 1.
  destruct (dict_get m v) as [i|] eqn:Hv.
  - destruct (entries_get_Some _ _ _ _ _ Hmt Hv) as (c & _ & Hc).
    rewrite (_add_present σ d v o f m i c Hm Hv Hc).
    rewrite (_add_present σ d v o g m i c Hm Hv Hc).
    erewrite _add_present; [| |exact Hv|]; simpl; [|done|apply lookup_insert_eq].
    rewrite insert_insert_eq, dict_set_set. eauto.
  - rewrite (_add_absent σ d v o f m Hm Hv).
    rewrite (_add_absent σ d v o g m Hm Hv).
    set (i := fresh (dom (inners σ))).
    erewrite _add_present; simpl;
      [|apply lookup_insert_eq| |apply lookup_insert_eq].
    + rewrite insert_insert_eq. simpl. rewrite Z.eqb_refl. eauto.
    + rewrite <-(dict_set_absent m v i Hv). apply dict_get_set_eq.
Qed.

(** X3. Registering [g] right after [f] for one and the same pair leaves
    the store exactly as registering [g] alone does: the first registration
    is absorbed, nothing is allocated for the second one and no entry is
    added.  This holds for encoders and for decoders, on every registry
    whose maps resolve. *)
Theorem reregistration_absorbs_previous
    (σ : heap) (r : MessageCodecRegistry) (v : ProtocolVersion) (o : Opcode)
    (f g : func) :
  is_Some (resolve σ (encoders r)) → is_Some (resolve σ (decoders r)) →
  (add_encoder r v o f >> add_encoder r v o g) σ = add_encoder r v o g σ ∧
  (add_decoder r v o f >> add_decoder r v o g) σ = add_decoder r v o g σ ∧
  (∃ σ', add_encoder r v o g σ = Ret tt σ') ∧
  (∃ σ', add_decoder r v o g σ = Ret tt σ').
Proof.
  intros He Hd. unfold add_encoder, add_decoder.
  destruct (_add_twice σ (encoders r) v o f g He) as [? ?].
  destruct (_add_twice σ (decoders r) v o f g Hd) as [? ?].
  done.
Qed.

Lemma reregistration_absorbs_previous_witness :
  (add_encoder (Registry 0 1) V4 7 (callable 0) >>
   add_encoder (Registry 0 1) V4 7 (encode QueryMessage)) small_store
  = Ret tt small_store.
Proof.
  destruct (reregistration_absorbs_previous small_store (Registry 0 1) V4 7
              (callable 0) (encode QueryMessage)) as (Hrun & _).
  - vm_compute. eexists. reflexivity.
  - vm_compute. eexists. reflexivity.
  - rewrite Hrun. vm_compute. reflexivity.
Defined.

Lemma add_frame_le σ0 σ σ' d :
  add_frame σ σ' d → heap_le σ0 σ → codecs σ' = codecs σ →
  outers σ0 !! d = None →
  (∀ i, i ∈ refs σ d → inners σ0 !! i = None) →
  heap_le σ0 σ' ∧ (∀ i, i ∈ refs σ' d → inners σ0 !! i = None).
Proof.
  intros (Hout & Hin & _ & Hrefs) (Hlo & Hli & Hlc) Hcod Hd Hfresh.
  split; [split_and!|].
  - apply map_subseteq_spec. intros l m Hl. rewrite Hout.
    + by eapply lookup_weaken.
    + intros ->. congruence.
  - apply map_subseteq_spec. intros i c Hi.
    pose proof (lookup_weaken _ _ _ _ Hi Hli) as Hi'. rewrite Hin; [done|eauto|].
    intros Hmem. rewrite (Hfresh i Hmem) in Hi. done.
  - by rewrite Hcod.
  - intros i Hi. destruct Hrefs as [Heq|(j & Hj & Heq)]; rewrite Heq in Hi.
    + by apply Hfresh.
    + apply elem_of_app in Hi as [Hi| ->%list_elem_of_singleton];
        [by apply Hfresh|].
      destruct (inners σ0 !! j) as [c|] eqn:E; [|done].
      by rewrite (lookup_weaken _ _ _ _ E Hli) in Hj.
Qed.

Lemma register_all_le σ0 r ops :
  outers σ0 !! encoders r = None → outers σ0 !! decoders r = None →
  ∀ σ, reg_inv σ r → heap_le σ0 σ →
    (∀ i, i ∈ refs σ (encoders r) → inners σ0 !! i = None) →
    (∀ i, i ∈ refs σ (decoders r) → inners σ0 !! i = None) →
    ∃ σ', register_all r ops σ = Ret tt σ' ∧ heap_le σ0 σ'.
Proof.
  intros Hfe Hfd. induction ops as [|op ops IH]; intros σ Hinv Hle Hre Hrd.
  - exists σ. done.
  - pose proof Hinv as (_ & [te He] & [td Hd] & _).
    destruct (register_step σ r op te td Hinv He Hd)
      as (σ1 & Hrun1 & Hinv1 & _ & _ & Hfr).
    assert (codecs σ1 = codecs σ) as Hcod.
    { apply (register_all_codecs r [op]). unfold register_all. simpl.
      unfold bind. by rewrite Hrun1. }
    destruct (IH σ1) as (σ' & Hrun' & Hle'); try done.
    + destruct Hfr as [[Hfr _]|[Hfr _]].
      * by destruct (add_frame_le σ0 σ σ1 _ Hfr Hle Hcod Hfe Hre).
      * by destruct (add_frame_le σ0 σ σ1 _ Hfr Hle Hcod Hfd Hrd).
    + destruct Hfr as [[Hfr _]|[Hfr Hsame]].
      * by destruct (add_frame_le σ0 σ σ1 _ Hfr Hle Hcod Hfe Hre).
      * intros i. rewrite Hsame. apply Hre.
    + destruct Hfr as [[Hfr Hsame]|[Hfr _]].
      * intros i. rewrite Hsame. apply Hrd.
      * by destruct (add_frame_le σ0 σ σ1 _ Hfr Hle Hcod Hfd Hrd).
    + exists σ'. split; [|done].
      unfold register_all in *. simpl. unfold bind. by rewrite Hrun1.
Qed.

(** X4. Creating a registry and registering into it touches nothing else:
    the two maps of the registry are new objects, and every dictionary that
    was in the store before is still there with the content it had.  The
    default build is one such sequence. *)
Theorem registry_leaves_the_store_alone
    (P : Protocol) (ops : list registration) (σ0 : heap) :
  (∃ r σ, registry_after ops σ0 = Ret r σ ∧ heap_le σ0 σ ∧
          outers σ0 !! encoders r = None ∧ outers σ0 !! decoders r = None) ∧
  (∃ r σ, _build_message_codec_registry P σ0 = Ret r σ ∧ heap_le σ0 σ ∧
          outers σ0 !! encoders r = None ∧ outers σ0 !! decoders r = None).
Proof.
  assert (∀ ops, ∃ r σ, registry_after ops σ0 = Ret r σ ∧ heap_le σ0 σ ∧
            outers σ0 !! encoders r = None ∧ outers σ0 !! decoders r = None)
    as Hgen.
  { intros ops'.
    destruct (MessageCodecRegistry_init_spec σ0)
      as (r & σ1 & Hinit & Hinv & He & Hd & Hfe & Hfd & Hle).
    apply not_elem_of_dom in Hfe, Hfd.
    assert (∀ d, resolve σ1 d = Some [] → ∀ i, i ∈ refs σ1 d → inners σ0 !! i = None)
      as Hnil.
    { intros d (m & Hm & ->%Forall2_nil_inv_r)%resolve_Some i. unfold refs.
      rewrite Hm. by intros ?%elem_of_nil. }
    destruct (register_all_le σ0 r ops' Hfe Hfd σ1 Hinv Hle (Hnil _ He) (Hnil _ Hd))
      as (σ & Hrun & Hle').
    exists r, σ. split_and!; try done.
    unfold registry_after, bind, ret. by rewrite Hinit, Hrun. }
  split; [apply Hgen|].
  destruct (build_spec P σ0)
    as (r & σ & i3 & i4 & i5 & Hrun & _ & _ & _ & _ & Hcod & σ' & Hrun' & Hσ).
  destruct (Hgen (default_registrations P i3 i4 i5))
    as (r' & σ'' & Hrun'' & (Hlo & Hli & _) & Hfe & Hfd).
  rewrite Hrun' in Hrun''. injection Hrun'' as <- <-.
  exists r, σ. split_and!; [done| |done..].
  rewrite Hσ. split_and!; [done..|]. simpl. rewrite Hcod. set_solver.
Qed.

(** X5. Lookups that fail on different (opcode, version) pairs never raise
    with the same message. *)
Theorem codec_error_message_inj (o o' : Opcode) (v v' : ProtocolVersion) :
  codec_error_message o v = codec_error_message o' v' → o = o' ∧ v = v'.
Proof.
  intros Heq.
  pose proof (read_codec_error_message o v) as H1.
  pose proof (read_codec_error_message o' v') as H2.
  rewrite Heq in H1. rewrite H1 in H2. by injection H2.
Qed.

Lemma codec_error_message_inj_witness :
  codec_error_message 7 V3
    = "No codec registered for message '07' and protocol version '3'" ∧
  (7 = 7 ∧ V3 = 3).
Proof.
  split; [vm_compute; reflexivity|].
  apply (codec_error_message_inj 7 7 V3 3). vm_compute. reflexivity.
Defined.

Lemma upper_hex_length_pos p :
  (1 ≤ String.length (upper_hex (Pos.to_hex_uint p)))%nat.
Proof.
  pose proof (HexadecimalPos.Unsigned.to_uint_nonnil p) as H.
  destruct (Pos.to_hex_uint p); simpl; try lia. done.
Qed.

Lemma format_02X_byte_widths :
  Forall (fun o => String.length (format_02X o) = 2%nat) (seqZ 0 256).
Proof. apply (bool_decide_unpack _). vm_compute. exact I. Qed.

(** X6. The opcode field of the message is never shorter than two
    characters, is exactly two characters for every opcode that fits in a
    byte, and is read back as the opcode whatever its size or sign: the
    format pads but never truncates. *)
Theorem format_02X_width (o : Opcode) :
  (2 ≤ String.length (format_02X o))%nat ∧
  (0 ≤ o < 256 → String.length (format_02X o) = 2%nat) ∧
  read_02X (format_02X o) = Some o.
Proof.
  split_and!.
  - destruct o as [|p|p]; simpl; [done| |].
    + pose proof (upper_hex_length_pos p) as Hp.
      destruct (Nat.ltb_spec (String.length (upper_hex (Pos.to_hex_uint p))) 2);
        simpl; lia.
    + pose proof (upper_hex_length_pos p). lia.
  - intros Ho.
    apply (proj1 (Forall_forall _ _) format_02X_byte_widths).
    apply elem_of_seqZ. lia.
  - apply read_02X_format_02X.
Qed.

Lemma format_02X_width_witness :
  String.length (format_02X 255) = 2%nat ∧ format_02X 255 = "FF" ∧
  format_02X 7 = "07" ∧ format_02X 256 = "100" ∧ format_02X (-1) = "-1".
Proof.
  split; [|vm_compute; done].
  apply (format_02X_width 255). lia.
Defined.

(** ** [cassandra/context.py] *)

(** X7. The registry of a context is built on the first access and kept:
    the first access on a new context runs the default build and stores its
    result; any later access, in any store, returns that same registry
    without building anything and without touching the store or the
    context. *)
Theorem message_codec_registry_is_built_once (P : Protocol) (σ0 : heap) :
  ∃ r σ1,
    _build_message_codec_registry P σ0 = Ret r σ1 ∧
    message_codec_registry P DriverContext_new σ0
      = Ret (r, Context (Some r) None) σ1 ∧
    (∀ σ h, message_codec_registry P (Context (Some r) h) σ
              = Ret (r, Context (Some r) h) σ) ∧
    (let* rc := message_codec_registry P DriverContext_new in
     message_codec_registry P rc.2) σ0 = Ret (r, Context (Some r) None) σ1.
Proof.
  destruct (build_spec P σ0) as (r & σ1 & i3 & i4 & i5 & Hrun & _).
  exists r, σ1. split_and!; [done|..].
  - unfold message_codec_registry, DriverContext_new, bind, ret; simpl.
    by rewrite Hrun.
  - done.
  - unfold message_codec_registry, DriverContext_new, bind, ret; simpl.
    by rewrite Hrun.
Qed.


Lemma dict_get_fold_Some {V} (items : list (Z * V)) (acc : dict V) k v :
  dict_get (fold_left (fun d kv => dict_set d kv.1 kv.2) items acc) k = Some v →
  (k, v) ∈ items ∨ dict_get acc k = Some v.
Proof.
  revert acc. induction items as [|[k' v'] items IH]; intros acc; simpl.
  - by right.
  - intros [Hin|Hacc]%IH; [left; by right|].
    rewrite dict_get_set in Hacc. destruct (Z.eqb_spec k' k) as [->|Hne].
    + injection Hacc as ->. left. left.
    + by right.
Qed.

Lemma dict_of_items_Some {V} (items : list (Z * V)) k v :
  dict_get (dict_of_items items) k = Some v → (k, v) ∈ items.
Proof. by intros [?|?]%dict_get_fold_Some. Qed.

(** X9. In the default registry, whatever the opcodes of the classes are
    and even when some coincide, the decoder at the opcode of the error
    codec is the decoder of an error codec, which is registered last; the
    encoder at the opcode of a request class is the [encode] of a request
    class with this very opcode, and the decoder at the opcode of a response
    codec other than the error opcode is the [decode] of a response codec
    with this very opcode. *)
Theorem default_registry_entries_among_collisions (P : Protocol) (σ0 : heap) :
  ∃ r σ, _build_message_codec_registry P σ0 = Ret r σ ∧
    ∀ v, v ∈ [V3; V4; V5] →
      (∃ self, get_decoder r v (error_codec_opcode P) σ
                 = Ret (codec_decode self (error_table P)) σ) ∧
      (∀ m, ∃ m', request_opcode P m' = request_opcode P m ∧
         get_encoder r v (request_opcode P m) σ = Ret (encode m') σ) ∧
      (∀ c, codec_opcode P c ≠ error_codec_opcode P →
         ∃ c', codec_opcode P c' = codec_opcode P c ∧
         get_decoder r v (codec_opcode P c) σ = Ret (decode c') σ).
Proof.
  destruct (build_spec P σ0) as (r & σ & i3 & i4 & i5 & Hrun & _ & He & Hd & _).
  exists r, σ. split; [done|]. intros v Hv.
  unfold get_encoder, get_decoder. split_and!.
  - rewrite (_get_resolve _ _ _ _ _ Hd).
    destruct (look_default_decoders P i3 i4 i5 v (error_codec_opcode P) Hv)
      as (self & _ & ->).
    exists self. unfold response_decoders. by rewrite dict_get_set_eq.
  - intros m. rewrite (_get_resolve _ _ _ _ _ He). unfold default_encoders.
    rewrite look_versions, decide_True by done.
    destruct (proj2 (request_encoders_is_Some P (request_opcode P m)))
      as [f Hf]; [by exists m|].
    rewrite Hf. unfold request_encoders in Hf.
    apply dict_of_items_Some, list_elem_of_fmap in Hf as (m' & Heq & _).
    injection Heq as Ho ->. by exists m'.
  - intros c Hne. rewrite (_get_resolve _ _ _ _ _ Hd).
    destruct (look_default_decoders P i3 i4 i5 v (codec_opcode P c) Hv)
      as (self & _ & ->).
    destruct (proj2 (response_decoders_is_Some P self (codec_opcode P c)))
      as [f Hf]; [left; by exists c|].
    rewrite Hf. unfold response_decoders in Hf.
    rewrite dict_get_set_ne in Hf by done.
    apply dict_of_items_Some, list_elem_of_fmap in Hf as (c' & Heq & _).
    injection Heq as Ho ->. by exists c'.
Qed.

(** X10. In the default registry the decoders of the seven response codecs
    are the same under V3, V4 and V5, as the encoders are: away from the
    error opcode the three versions hold the same entry at every opcode.  At
    the error opcode each version holds the decoder of an error codec of its
    own: the build creates one codec object per version, so that the three
    decoders are bound to three distinct objects; they have one and the same
    table, and do the same. *)
Theorem default_decoders_across_versions (P : Protocol) (σ0 : heap) :
  ∃ r σ i3 i4 i5, _build_message_codec_registry P σ0 = Ret r σ ∧
    (∀ o, o ≠ error_codec_opcode P →
       lookup2 σ (decoders r) V3 o = lookup2 σ (decoders r) V4 o ∧
       lookup2 σ (decoders r) V4 o = lookup2 σ (decoders r) V5 o) ∧
    lookup2 σ (decoders r) V3 (error_codec_opcode P)
      = Some (codec_decode i3 (error_table P)) ∧
    lookup2 σ (decoders r) V4 (error_codec_opcode P)
      = Some (codec_decode i4 (error_table P)) ∧
    lookup2 σ (decoders r) V5 (error_codec_opcode P)
      = Some (codec_decode i5 (error_table P)) ∧
    i3 ≠ i4 ∧ i3 ≠ i5 ∧ i4 ≠ i5 ∧
    (i3 ∉ codecs σ0) ∧ (i4 ∉ codecs σ0) ∧ (i5 ∉ codecs σ0) ∧
    (∀ o, erase_self <$> lookup2 σ (decoders r) V3 o
            = erase_self <$> lookup2 σ (decoders r) V4 o ∧
          erase_self <$> lookup2 σ (decoders r) V4 o
            = erase_self <$> lookup2 σ (decoders r) V5 o).
Proof.
  destruct (build_spec P σ0)
    as (r & σ & i3 & i4 & i5 & Hrun & _ & He & Hd & Hids & _).
  apply build_codecs_fresh in Hids as (H3 & H4 & H5 & H34 & H35 & H45).
  destruct (look_default_error P i3 i4 i5) as (Hl3 & Hl4 & Hl5).
  exists r, σ, i3, i4, i5. rewrite !(lookup2_resolve _ _ _ _ _ Hd).
  split_and!; try done.
  - intros o Ho. rewrite !(lookup2_resolve _ _ _ _ _ Hd).
    rewrite !(look_default_class P i3 i4 i5 _ o Ho). done.
  - intros o. rewrite !(lookup2_resolve _ _ _ _ _ Hd).
    rewrite <-!look_erase_maps, erase_default_decoders. done.
Qed.

(** ** [tests/integration/standard/test_custom_protocol_handler.py] *)

(** X11. A custom handler serves exactly the versions of the maps it was
    built from: its decoder map has the same version keys in the same
    order, it holds nothing at all under a version the base map lacks (the
    result opcode included: the loop adds no version), and under every
    version of the base it holds the custom result decoder, whether or not
    the base had a result decoder there. *)
Theorem custom_handler_keeps_versions
    (P : Protocol) (c : CustomCodec) (σ : heap) (base : ProtocolHandler) :
  is_Some (resolve σ (handler_encoders base)) →
  is_Some (resolve σ (handler_decoders base)) →
  ∃ h σ' td td',
    custom_handler_init P c (handler_encoders base) (handler_decoders base) σ
      = Ret h σ' ∧
    resolve σ (handler_decoders base) = Some td ∧
    resolve σ' (handler_decoders h) = Some td' ∧
    dict_keys td' = dict_keys td ∧
    (∀ v o, v ∉ dict_keys td → handler_decoder σ' h v o = None) ∧
    (∀ v, v ∈ dict_keys td →
       handler_decoder σ' h v (result_message_opcode P) = Some (custom_decode c)).
Proof.
  intros [te He] [td Hd].
  destruct (custom_handler_init_spec P c σ _ _ te td He Hd)
    as (h & σ' & te' & td' & Hrun & _ & _ & Hhd & _ & Hkeys & _ & Hres & _).
  exists h, σ', td, td'. unfold handler_decoder. split_and!; try done.
  - intros v o Hv. rewrite (lookup2_resolve _ _ _ _ _ Hhd).
    apply look_absent. by rewrite Hkeys.
  - intros v Hv. rewrite (lookup2_resolve _ _ _ _ _ Hhd). by apply Hres.
Qed.

Lemma custom_handler_keeps_versions_witness :
  ∃ h σ',
    CustomTestRawRowType_init native_protocol 2%nat 3%nat default_store
      = Ret h σ' ∧
    dict_keys <$> resolve σ' (handler_decoders h) = Some [V3; V4; V5] ∧
    handler_decoder σ' h 2 8 = None.
Proof.
  destruct (custom_handler_keeps_versions native_protocol
              CustomResultMessageRaw_Codec default_store default_handler)
    as (h & σ' & td & td' & Hrun & Htd & Htd' & Hkeys & Habs & _).
  - vm_compute. eexists. reflexivity.
  - vm_compute. eexists. reflexivity.
  - exists h, σ'. split; [exact Hrun|]. vm_compute in Htd.
    injection Htd as <-. split.
    + rewrite Htd'. simpl. rewrite Hkeys. vm_compute. reflexivity.
    + apply Habs. vm_compute. intros Hin.
      repeat (apply elem_of_cons in Hin as [Hin|Hin]; [discriminate Hin|]).
      by apply elem_of_nil in Hin.
Defined.

(** X12. Overrides stack, the last one winning: a raw-row handler built
    from the maps of a tracking handler, itself built from a base, holds the
    raw result decoder under every version of the base and, everywhere else,
    copies of the decoders and of the encoders of the base: functions that
    do what those of the base do, equal to them when they are bound to a
    class and bound to a new error codec object with the same table
    otherwise.  The tracking handler still holds the tracking decoder and
    the base is as it was. *)
Theorem custom_handlers_stack
    (P : Protocol) (σ : heap) (base : ProtocolHandler) :
  is_Some (resolve σ (handler_encoders base)) →
  is_Some (resolve σ (handler_decoders base)) →
  ∃ h1 σ1 h2 σ2,
    CustomProtocolHandlerResultMessageTracked_init P
      (handler_encoders base) (handler_decoders base) σ = Ret h1 σ1 ∧
    CustomTestRawRowType_init P
      (handler_encoders h1) (handler_decoders h1) σ1 = Ret h2 σ2 ∧
    (∀ v o, entry_of_base (codecs σ)
              (handler_encoder σ base v o) (handler_encoder σ2 h2 v o)) ∧
    (∀ v o, o ≠ result_message_opcode P →
       entry_of_base (codecs σ)
         (handler_decoder σ base v o) (handler_decoder σ2 h2 v o)) ∧
    (∀ v, is_Some (outers σ !! handler_decoders base ≫= fun m => dict_get m v) →
       handler_decoder σ2 h2 v (result_message_opcode P)
         = Some (custom_decode CustomResultMessageRaw_Codec) ∧
       handler_decoder σ2 h1 v (result_message_opcode P)
         = Some (custom_decode CustomResultMessageTracked_Codec)) ∧
    (∀ v o, handler_decoder σ2 base v o = handler_decoder σ base v o) ∧
    (∀ v o, handler_encoder σ2 base v o = handler_encoder σ base v o).
Proof.
  intros [te He] [td Hd].
  destruct (custom_handler_init_spec P CustomResultMessageTracked_Codec
              σ _ _ te td He Hd)
    as (h1 & σ1 & te1 & td1 & Hrun1 & Hle1 & Hhe1 & Hhd1 & Hcpe1 & Hkeys1
        & Hcpd1 & Hres1 & _).
  destruct (custom_handler_init_spec P CustomResultMessageRaw_Codec
              σ1 _ _ te1 td1 Hhe1 Hhd1)
    as (h2 & σ2 & te2 & td2 & Hrun2 & Hle2 & Hhe2 & Hhd2 & Hcpe2 & Hkeys2
        & Hcpd2 & Hres2 & _).
  pose proof (resolve_le _ _ _ _ Hle2 Hhd1) as Hhd1'.
  pose proof (resolve_le _ _ _ _ Hle2 (resolve_le _ _ _ _ Hle1 Hd)) as Hd'.
  pose proof (resolve_le _ _ _ _ Hle2 (resolve_le _ _ _ _ Hle1 He)) as He'.
  assert (codecs σ ⊆ codecs σ1) as Hsub by apply Hle1.
  exists h1, σ1, h2, σ2. unfold handler_encoder, handler_decoder.
  split_and!; try done.
  - intros v o. apply copied_entry_base.
    rewrite (lookup2_resolve _ _ _ _ _ Hhe2), (lookup2_resolve _ _ _ _ _ He).
    eapply copied_entry_trans; [exact Hsub| |];
      by apply copied_maps_look.
  - intros v o Ho. apply copied_entry_base.
    rewrite (lookup2_resolve _ _ _ _ _ Hhd2), (lookup2_resolve _ _ _ _ _ Hd).
    eapply copied_entry_trans; [exact Hsub|by apply Hcpd1|by apply Hcpd2].
  - intros v Hv.
    assert (v ∈ dict_keys td) as Hin.
    { apply resolve_Some in Hd as (m & Hm & Hmt). rewrite Hm in Hv.
      simpl in Hv. rewrite <-(entries_keys _ _ _ Hmt).
      by apply dict_get_is_Some. }
    rewrite (lookup2_resolve _ _ _ _ _ Hhd2), (lookup2_resolve _ _ _ _ _ Hhd1').
    split; [|by apply Hres1].
    apply Hres2. by rewrite Hkeys1.
  - intros v o.
    by rewrite (lookup2_resolve _ _ _ _ _ Hd'), (lookup2_resolve _ _ _ _ _ Hd).
  - intros v o.
    by rewrite (lookup2_resolve _ _ _ _ _ He'), (lookup2_resolve _ _ _ _ _ He).
Qed.

Lemma custom_handlers_stack_witness :
  ∃ h1 σ1 h2 σ2,
    CustomProtocolHandlerResultMessageTracked_init native_protocol
      2%nat 3%nat default_store = Ret h1 σ1 ∧
    CustomTestRawRowType_init native_protocol
      (handler_encoders h1) (handler_decoders h1) σ1 = Ret h2 σ2 ∧
    handler_decoder σ2 h2 V4 8
      = Some (custom_decode CustomResultMessageRaw_Codec) ∧
    handler_decoder σ2 h1 V4 8
      = Some (custom_decode CustomResultMessageTracked_Codec).
Proof.
  destruct (custom_handlers_stack native_protocol default_store default_handler)
    as (h1 & σ1 & h2 & σ2 & Hrun1 & Hrun2 & _ & _ & Hres & _).
  - vm_compute. eexists. reflexivity.
  - vm_compute. eexists. reflexivity.
  - exists h1, σ1, h2, σ2. split; [exact Hrun1|]. split; [exact Hrun2|].
    apply (Hres V4). vm_compute. eexists. reflexivity.
Defined.

(** ** Decoding the rows of a result *)

Lemma decode_rows_outcome (R : RowCodec) cls n ncols (s : dstate R) :
  match decode_rows R cls n ncols s with
  | DRet rows s' => length rows = n ∧ d_checked s' = d_checked s
  | DRaise _ s' => d_checked s' = d_checked s
  end.
Proof.
  revert s. induction n as [|n IH]; intros s; simpl; [done|].
  unfold dbind, on_stream, dret.
  destruct (decode_row R cls ncols (d_stream s)) as [[row|e] st]; [|done].
  specialize (IH (DState st (d_checked s))).
  destruct (decode_rows R cls n ncols _) as [rows s'|e s']; [|done].
  destruct IH as [<- ?]. done.
Qed.

Lemma parse_row_outcome (R : RowCodec) pv cts row (s : dstate R) :
  match parse_row R pv cts row s with
  | DRet t s' => s' = s ∧ length t = (length cts `min` length row)%nat
  | DRaise _ s' => s' = s
  end.
Proof.
  revert row. induction cts as [|ct cts IH]; intros [|val row]; simpl; try done.
  unfold dbind, computed, dret.
  destruct (from_binary R ct val pv) as [p|e]; [|done].
  specialize (IH row). destruct (parse_row R pv cts row s) as [t s'|e s']; [|done].
  destruct IH as [-> Hlen]. split; [done|]. simpl. by rewrite Hlen.
Qed.

Lemma parse_rows_outcome (R : RowCodec) pv cts rows (s : dstate R) :
  match parse_rows R pv cts rows s with
  | DRet ts s' =>
      s' = s ∧
      Forall2 (fun t row => length t = (length cts `min` length row)%nat) ts rows
  | DRaise _ s' => s' = s
  end.
Proof.
  induction rows as [|row rows IH]; simpl; [by split; [|constructor]|].
  unfold dbind, dret.
  pose proof (parse_row_outcome R pv cts row s) as Hrow.
  destruct (parse_row R pv cts row s) as [t s1|e s1]; [|done].
  destruct Hrow as [-> Hlen].
  destruct (parse_rows R pv cts rows s) as [ts s'|e s']; [|done].
  destruct IH as [-> Hall]. split; [done|]. by constructor.
Qed.

(** X13. The raw-row decoder returns as many rows as the row count read
    from the stream says, and none when that count is zero or negative; it
    returns one name and one type per column of the metadata, in their
    order; and it asks for each row with the number of columns. *)
Theorem Raw_decode_results_rows_shape
    (R : RowCodec) (pv : ProtocolVersion) (um : usermap R) (s : dstate R) :
  match Raw_decode_results_rows R pv um s with
  | DRet (ps, coltypes, (colnames, rows), id) s' =>
      ∃ cm rc s1 s2,
        decode_results_metadata R CustomResultMessageRaw_Codec um (d_stream s)
          = (inl (ps, cm, id), s1) ∧
        read_int R s1 = (inl rc, s2) ∧
        length rows = Z.to_nat rc ∧
        (rc ≤ 0 → rows = [] ∧ d_stream s' = s2) ∧
        coltypes = map (item3 R) cm ∧ colnames = map (item2 R) cm ∧
        decode_rows R CustomResultMessageRaw_Codec (Z.to_nat rc) (length cm)
          (DState s2 (d_checked s)) = DRet rows s'
  | DRaise _ _ => True
  end.
Proof.
  unfold Raw_decode_results_rows, dbind, on_stream, dret.
  destruct (decode_results_metadata R _ um (d_stream s))
    as [[[[ps cm] id]|e] s1] eqn:Hmeta; [|done]. simpl.
  destruct (read_int R s1) as [[rc|e] s2] eqn:Hint; [|done]. simpl.
  pose proof (decode_rows_outcome R CustomResultMessageRaw_Codec
                (Z.to_nat rc) (length cm) (DState s2 (d_checked s))) as Hrows.
  destruct (decode_rows R _ (Z.to_nat rc) (length cm) _) as [rows s'|e s'] eqn:E;
    [|done].
  destruct Hrows as [Hlen _]. exists cm, rc, s1, s2. split_and!; try done.
  intros Hrc. assert (Z.to_nat rc = 0%nat) as H0 by lia. rewrite H0 in E.
  simpl in E. unfold dret in E. injection E as <- <-. done.
Qed.

(** X14. The tracking decoder only ever adds to the set of checked types:
    whether it returns or raises, nothing that was in the set is lost.  When
    it returns, every column type is in the set, there is one name and one
    type per column, one parsed row per row read, that is as many as the row
    count read from the stream says, and no parsed row is longer than the
    number of columns. *)
Theorem Tracked_decode_results_rows_tracks
    (R : RowCodec) (pv : ProtocolVersion) (um : usermap R) (s : dstate R) :
  match Tracked_decode_results_rows R pv um s with
  | DRet (ps, coltypes, (colnames, parsed_rows), id) s' =>
      d_checked s ⊆ d_checked s' ∧
      (∀ ct, ct ∈ coltypes → ct ∈ d_checked s') ∧
      d_checked s' = d_checked s ∪ list_to_set coltypes ∧
      length colnames = length coltypes ∧
      Forall (fun t => (length t ≤ length coltypes)%nat) parsed_rows ∧
      ∃ cm rc s1 s2,
        decode_results_metadata R CustomResultMessageTracked_Codec um (d_stream s)
          = (inl (ps, cm, id), s1) ∧
        read_int R s1 = (inl rc, s2) ∧
        length parsed_rows = Z.to_nat rc
  | DRaise _ s' => d_checked s ⊆ d_checked s'
  end.
Proof.
  unfold Tracked_decode_results_rows, dbind, on_stream, dret, update_checked.
  destruct (decode_results_metadata R _ um (d_stream s))
    as [[[[ps cm] id]|e] s1] eqn:Hmeta; [|done]. simpl.
  destruct (read_int R s1) as [[rc|e] s2] eqn:Hint; [|done]. simpl.
  pose proof (decode_rows_outcome R CustomResultMessageTracked_Codec
                (Z.to_nat rc) (length cm) (DState s2 (d_checked s))) as Hrows.
  destruct (decode_rows R _ (Z.to_nat rc) (length cm) _) as [rows s3|e s3];
    simpl in Hrows; [|by rewrite Hrows].
  destruct Hrows as [Hlen Hchk].
  pose proof (parse_rows_outcome R pv (map (item3 R) cm) rows
                (DState (d_stream s3) (d_checked s3 ∪ list_to_set (map (item3 R) cm))))
    as Hparse.
  destruct (parse_rows R pv _ rows _) as [ts s'|e s'].
  - destruct Hparse as [-> Hall]. simpl. rewrite Hchk. split_and!.
    + set_solver.
    + intros ct Hct. apply elem_of_union. right. by apply elem_of_list_to_set.
    + done.
    + by rewrite !length_map.
    + clear -Hall. induction Hall as [|t row ts rows Ht _ IH]; constructor;
        [lia|done].
    + exists cm, rc, s1, s2. split_and!; [done..|].
      rewrite <-Hlen. by eapply Forall2_length.
  - rewrite Hparse. simpl. rewrite Hchk. set_solver.
Qed.

(** Two columns of types 20 and 21 and two rows: the raw decoder returns
    the cells, the tracking decoder parses them and records the types; with
    a negative row count no row is read; a stream that ends in the middle of
    a row makes both raise. *)
Example decode_results_rows_toy :
  Raw_decode_results_rows toy_rows 4 tt
    (DState (R := toy_rows) [2; 10; 20; 11; 21; 2; 1; 2; 3; 4; 99] ∅)
    = DRet (tt, [20; 21], ([10; 11], [[1; 2]; [3; 4]]), tt) (DState (R := toy_rows) [99] ∅) ∧
  Tracked_decode_results_rows toy_rows 4 tt
    (DState (R := toy_rows) [2; 10; 20; 11; 21; 2; 1; 2; 3; 4; 99] {[ 7 ]})
    = DRet (tt, [20; 21], ([10; 11], [[21; 23]; [23; 25]]), tt)
        (DState (R := toy_rows) [99] ({[ 7 ]} ∪ list_to_set [20; 21])) ∧
  Raw_decode_results_rows toy_rows 4 tt (DState (R := toy_rows) [1; 10; 20; -3; 5] ∅)
    = DRet (tt, [20], ([10], []), tt) (DState (R := toy_rows) [5] ∅) ∧
  Tracked_decode_results_rows toy_rows 4 tt (DState (R := toy_rows) [1; 10; 20; 2; 5] {[ 7 ]})
    = DRaise (R := toy_rows) tt (DState (R := toy_rows) [] {[ 7 ]}).
Proof. split_and!; vm_compute; reflexivity. Qed.
